(** * Task-Manager: the task domain service and its persistence store

    A shallow embedding of [src/services/TaskService.ts] and of the
    [LocalStorageTaskRepository] class of [src/repositories/TaskRepository.ts],
    together with the properties the specification states about them.

    Conventions of the embedding:
    - a JavaScript string is the list of its UTF-16 code units ([jsstring]);
      [.length] is the length of that list;
    - a [Date] is its time value in milliseconds since the epoch, or the
      Invalid Date (time value NaN);
    - a function that can throw returns a [Result];
    - the readings of the clock and of the random generator are passed in
      explicitly ([Env], [now]);
    - [localStorage] is an explicit state threaded through the repository. *)

From Stdlib Require Import ZArith NArith List String Ascii Bool Lia.
From Stdlib Require Import Permutation Sorted DecimalString SpecFloat.
From Stdlib Require Import DecimalPos DecimalZ.
From stdpp Require Import base option list gmap.
Import ListNotations.

Local Open Scope Z_scope.

(** ** JavaScript strings *)

Definition jsstring := list N.

(** A literal of the source, as code units (the literals used are ASCII). *)
Definition str (s : string) : jsstring :=
  List.map N_of_ascii (list_ascii_of_string s).

Definition js_length (s : jsstring) : Z := Z.of_nat (List.length s).

(** The code units matched by the regular expression class [\s]; they are also
    the ones [String.prototype.trim] strips (WhiteSpace and LineTerminator). *)
Definition is_ws (c : N) : bool :=
  ((9 <=? c) && (c <=? 13) || (c =? 32) || (c =? 160) || (c =? 5760)
   || (8192 <=? c) && (c <=? 8202) || (c =? 8232) || (c =? 8233)
   || (c =? 8239) || (c =? 8287) || (c =? 12288) || (c =? 65279))%N.

Definition SPACE : N := 32%N.

Fixpoint drop_ws (s : jsstring) : jsstring :=
  match s with
  | c :: s' => if is_ws c then drop_ws s' else s
  | [] => []
  end.

(** [s.trim()] *)
Definition trim (s : jsstring) : jsstring :=
  rev (drop_ws (rev (drop_ws s))).

(** [s.replace(/\s+/g, ' ')]: every maximal run of white space becomes one
    space. [in_run] tells that the code unit before was white space, that is
    that the current match of [\s+] is still being extended. *)
Fixpoint replace_ws_from (in_run : bool) (s : jsstring) : jsstring :=
  match s with
  | [] => []
  | c :: s' =>
      if is_ws c then
        if in_run then replace_ws_from true s'
        else SPACE :: replace_ws_from true s'
      else c :: replace_ws_from false s'
  end.

Definition replace_ws_runs (s : jsstring) : jsstring := replace_ws_from false s.

(** ** Errors and results *)

(** A thrown value: an error object with its [name] and [message]. *)
Record JsError := mkError { name : jsstring; message : jsstring }.

(** [new Error(msg)] *)
Definition Error (msg : string) : JsError := mkError (str "Error") (str msg).

Inductive Result (A : Type) : Type :=
| Ok (a : A)
| Throw (e : JsError).
Arguments Ok {A} a.
Arguments Throw {A} e.

(** ** Core domain types ([types/core.ts]) *)

Inductive TaskStatus := pending | completed.

Definition status_eqb (a b : TaskStatus) : bool :=
  match a, b with
  | pending, pending | completed, completed => true
  | _, _ => false
  end.

Inductive FilterType := all | active | filter_completed.

(** A [Date] object: a time value in milliseconds, or the Invalid Date. *)
Inductive Date := ValidDate (t : Z) | InvalidDate.

(** A JavaScript number as far as [getTime] and the sort comparator need it:
    an integer, or NaN ([None]). *)
Definition number := option Z.

Definition getTime (d : Date) : number :=
  match d with ValidDate t => Some t | InvalidDate => None end.

Record TaskEntity := mkTask {
  id : jsstring;
  title : jsstring;
  status : TaskStatus;
  createdAt : Date;
  updatedAt : Date
}.

Record TaskCreationData := { creation_title : jsstring }.

(** Optional properties: [None] is [undefined]. *)
Record TaskUpdateData := {
  update_title : option jsstring;
  update_status : option TaskStatus
}.

Record TaskStats := mkStats {
  total : Z;
  stat_completed : Z;
  stat_pending : Z;
  completionRate : Z
}.

Record TaskFilter := {
  filter_type : FilterType;
  predicate : TaskEntity -> bool
}.

(** ** Double-precision arithmetic, as far as [calculateStats] uses it

    [completed / total] and [... * 100] are IEEE 754 binary64 operations with
    round-to-nearest, ties-to-even. A finite non-negative double is kept as
    the pair of its integer significand and its exponent. *)

Record double := mkDouble { mant : Z; expo : Z }.   (* mant * 2^expo *)

(** The integer nearest to [a / b], ties to the even one ([0 <= a], [0 < b]). *)
Definition round_nearest_even (a b : Z) : Z :=
  let k := a / b in
  let r := a mod b in
  if 2 * r <? b then k
  else if b <? 2 * r then k + 1
  else if Z.even k then k else k + 1.

(** Numerator and denominator of [p / q / 2^e]. *)
Definition scale_num (p e : Z) : Z := if e <? 0 then p * 2 ^ (- e) else p.
Definition scale_den (q e : Z) : Z := if e <? 0 then q else q * 2 ^ e.

(** The double nearest to the rational [p / q] ([0 <= p], [0 < q]): the
    exponent is chosen so that the significand has 53 bits (and is not below
    the exponent of the subnormal numbers); overflow to infinity is not
    modelled (the quotients and products below stay under 2^53). *)
Definition fl (p q : Z) : double :=
  if p =? 0 then mkDouble 0 0 else
  let e0 := Z.log2 p - Z.log2 q - 53 in
  let n := scale_num p e0 / scale_den q e0 in
  let e := Z.max (if n <? 2 ^ 53 then e0 else e0 + 1) (-1074) in
  mkDouble (round_nearest_even (scale_num p e) (scale_den q e)) e.

(** [a / b] on two integers that are exact doubles. *)
Definition fl_div (a b : Z) : double := fl a b.

(** [x * k] for a double [x] and an integer [k] that is an exact double. *)
Definition fl_mul (x : double) (k : Z) : double :=
  fl (scale_num (mant x * k) (- expo x)) (scale_den 1 (- expo x)).

(** [Math.round(x)]: the nearest integer, the larger one at a tie. *)
Definition Math_round (x : double) : Z :=
  if 0 <=? expo x then mant x * 2 ^ expo x
  else (2 * mant x + 2 ^ (- expo x)) / (2 * 2 ^ (- expo x)).

(** The same operations in the Standard Library's specification of binary64
    ([SpecFloat], precision 53 and maximal exponent 1024), to compare the
    model with. *)
Definition SF64 (z : Z) : spec_float := binary_normalize 53 1024 z 0 false.

Definition ieee_rate (c t : Z) : spec_float :=
  SFmul 53 1024 (SFdiv 53 1024 (SF64 c) (SF64 t)) (SF64 100).

Definition same_value (x : spec_float) (d : double) : bool :=
  match x with
  | S754_zero false => mant d =? 0
  | S754_finite false m e =>
      let k := Z.min e (expo d) in
      Z.pos m * 2 ^ (e - k) =? mant d * 2 ^ (expo d - k)
  | _ => false
  end.

Definition upto (n : nat) : list Z := List.map Z.of_nat (seq 0 (S n)).

(** ** The environment of the service *)

(** What one call of [createTask] reads from the platform: the clock at
    [new Date()], the clock at [Date.now()], and the text of
    [Math.random().toString(36)]. *)
Record Env := {
  new_Date : Z;
  Date_now : Z;
  Math_random_36 : jsstring
}.

(** Decimal text of an integer, as a template literal prints it. *)
Definition Z_to_jsstring (z : Z) : jsstring :=
  str (NilZero.string_of_int (Z.to_int z)).

(** [s.substring(a, b)] for [0 <= a <= b]. *)
Definition substring (a b : nat) (s : jsstring) : jsstring :=
  firstn (b - a) (skipn a s).

(** ** TaskService *)

Definition title_error : JsError :=
  Error "Task title must be between 1 and 255 characters".

Definition sanitizeTitle (title : jsstring) : jsstring :=
  replace_ws_runs (trim title).

Definition validateTitle (title : jsstring) : bool :=
  (js_length title >? 0) && (js_length title <=? 255).

Definition generateId (env : Env) : jsstring :=
  str "task_" ++ Z_to_jsstring (Date_now env) ++ str "_"
    ++ substring 2 11 (Math_random_36 env).

Definition createTask (env : Env) (data : TaskCreationData) : Result TaskEntity :=
  let now := ValidDate (new_Date env) in
  let title := sanitizeTitle (creation_title data) in
  if negb (validateTitle title) then Throw title_error
  else Ok {| id := generateId env;
             title := title;
             status := pending;
             createdAt := now;
             updatedAt := now |}.

Definition set_title (t : TaskEntity) (v : jsstring) : TaskEntity :=
  mkTask (id t) v (status t) (createdAt t) (updatedAt t).
Definition set_status (t : TaskEntity) (v : TaskStatus) : TaskEntity :=
  mkTask (id t) (title t) v (createdAt t) (updatedAt t).
Definition set_updatedAt (t : TaskEntity) (v : Date) : TaskEntity :=
  mkTask (id t) (title t) (status t) (createdAt t) v.

(** [now] is the clock reading of the [new Date()] of the last step. The two
    [if] statements of the source are the two stages below, each handing on
    the copy and the [hasChanges] flag. *)
Definition updateTask (now : Z) (task : TaskEntity) (updates : TaskUpdateData)
  : Result TaskEntity :=
  let updatedTask := task in
  let hasChanges := false in
  let after_title :=
    match update_title updates with
    | Some t =>
        let sanitizedTitle := sanitizeTitle t in
        if negb (validateTitle sanitizedTitle) then Throw title_error
        else Ok (set_title updatedTask sanitizedTitle, true)
    | None => Ok (updatedTask, hasChanges)
    end in
  match after_title with
  | Throw e => Throw e
  | Ok (updatedTask, hasChanges) =>
      let '(updatedTask, hasChanges) :=
        match update_status updates with
        | Some s =>
            if negb (status_eqb s (status task))
            then (set_status updatedTask s, true)
            else (updatedTask, hasChanges)
        | None => (updatedTask, hasChanges)
        end in
      Ok (if hasChanges then set_updatedAt updatedTask (ValidDate now)
          else updatedTask)
  end.

Definition toggleTaskStatus (now : Z) (task : TaskEntity) : Result TaskEntity :=
  updateTask now task
    {| update_title := None;
       update_status :=
         Some (if status_eqb (status task) pending then completed else pending) |}.

Definition getFilter (type : FilterType) : TaskFilter :=
  match type with
  | all => {| filter_type := all; predicate := fun _ => true |}
  | active =>
      {| filter_type := active;
         predicate := fun task => status_eqb (status task) pending |}
  | filter_completed =>
      {| filter_type := filter_completed;
         predicate := fun task => status_eqb (status task) completed |}
  end.

Definition filterTasks (tasks : list TaskEntity) (filterType : FilterType)
  : list TaskEntity :=
  let filter := getFilter filterType in
  List.filter (predicate filter) tasks.

Definition calculateStats (tasks : list TaskEntity) : TaskStats :=
  let total := Z.of_nat (length tasks) in
  let completed :=
    Z.of_nat (length (List.filter
                        (fun task => status_eqb (status task) completed) tasks)) in
  let pending := total - completed in
  let completionRate :=
    if total >? 0 then Math_round (fl_mul (fl_div completed total) 100) else 0 in
  mkStats total completed pending completionRate.

(** *** Sorting

    [Array.prototype.sort] with a comparator: a comparator result that is NaN
    counts as [+0]; the sort is stable. With a consistent comparator the
    result is determined by these two requirements, whatever algorithm the
    engine runs ([Array_sort_canonical] below); the model is the stable
    insertion sort. *)

Definition SortCompare {A} (comparefn : A -> A -> number) (x y : A) : Z :=
  match comparefn x y with
  | Some v => v
  | None => 0
  end.

Fixpoint sort_insert {A} (comparefn : A -> A -> number) (x : A) (l : list A)
  : list A :=
  match l with
  | [] => [x]
  | y :: l' =>
      if SortCompare comparefn x y <=? 0 then x :: y :: l'
      else y :: sort_insert comparefn x l'
  end.

Fixpoint Array_sort {A} (comparefn : A -> A -> number) (l : list A) : list A :=
  match l with
  | [] => []
  | x :: l' => sort_insert comparefn x (Array_sort comparefn l')
  end.

(** [a - b] and [-a] on numbers that may be NaN. The difference of two time
    values is kept exact: rounding it to a double does not change its sign,
    which is all the sort uses. *)
Definition number_sub (a b : number) : number :=
  match a, b with
  | Some x, Some y => Some (x - y)
  | _, _ => None
  end.

Definition number_neg (a : number) : number :=
  match a with Some x => Some (- x) | None => None end.

Definition creation_comparator (descending : bool) (a b : TaskEntity) : number :=
  let comparison := number_sub (getTime (createdAt a)) (getTime (createdAt b)) in
  if descending then number_neg comparison else comparison.

Definition sortTasksByCreationDate (tasks : list TaskEntity) (descending : bool)
  : list TaskEntity :=
  Array_sort (creation_comparator descending) tasks.

(** ** Platform functions used by the repository *)

(** *** JSON values

    The values [JSON.parse] can return and the ones [serializeTask] builds. A
    number is kept as a decimal text that denotes it (the repository never
    looks into a number, nor writes one); an object is the list of its own
    properties in property order. *)

#[warnings="-register-all"]
Inductive JSON :=
| JNull
| JBool (b : bool)
| JNumber (text : jsstring)
| JString (s : jsstring)
| JArray (elements : list JSON)
| JObject (properties : list (jsstring * JSON)).

Definition jsstring_eqb (a b : jsstring) : bool :=
  bool_decide (a = b).

(** [data[key]] for a property name that is neither an array index nor
    [length] (an array has no own property of such a name); [None] is
    [undefined]. *)
Fixpoint lookup_property (key : jsstring) (props : list (jsstring * JSON))
  : option JSON :=
  match props with
  | [] => None
  | (k, v) :: props' =>
      if jsstring_eqb k key then Some v else lookup_property key props'
  end.

Definition get_property (data : JSON) (key : string) : option JSON :=
  match data with
  | JObject props => lookup_property (str key) props
  | _ => None
  end.

(** Lower-case hexadecimal digit and the escape [\uXXXX]. *)
Definition hex_digit (d : N) : N := (if d <? 10 then 48 + d else 87 + d)%N.

Definition unicode_escape (c : N) : jsstring :=
  [92; 117; hex_digit (c / 4096 mod 16); hex_digit (c / 256 mod 16);
   hex_digit (c / 16 mod 16); hex_digit (c mod 16)]%N.

Definition is_high_surrogate (c : N) : bool := ((55296 <=? c) && (c <=? 56319))%N.
Definition is_low_surrogate (c : N) : bool := ((56320 <=? c) && (c <=? 57343))%N.

(** The escape of one code unit that is not part of a surrogate pair. *)
Definition quote_unit (c : N) : jsstring :=
  (if c =? 8 then [92; 98]            (* \b *)
   else if c =? 9 then [92; 116]      (* \t *)
   else if c =? 10 then [92; 110]     (* \n *)
   else if c =? 12 then [92; 102]     (* \f *)
   else if c =? 13 then [92; 114]     (* \r *)
   else if c =? 34 then [92; 34]      (* escaped quote *)
   else if c =? 92 then [92; 92]      (* escaped backslash *)
   else if (c <? 32) || is_high_surrogate c || is_low_surrogate c
        then unicode_escape c
   else [c])%N.

(** The body of [QuoteJSONString]: the string is read by code points, so a
    well-formed surrogate pair is copied and a lone surrogate is escaped. *)
Fixpoint quote_units (s : jsstring) : jsstring :=
  match s with
  | [] => []
  | c :: s' =>
      match s' with
      | d :: s'' =>
          if is_high_surrogate c && is_low_surrogate d
          then c :: d :: quote_units s''
          else quote_unit c ++ quote_units s'
      | [] => quote_unit c
      end
  end.

Definition QuoteJSONString (s : jsstring) : jsstring :=
  [34%N] ++ quote_units s ++ [34%N].

Definition COMMA : jsstring := [44%N].

(** [JSON.stringify(v)] without indentation. *)
Fixpoint JSON_stringify (v : JSON) : jsstring :=
  match v with
  | JNull => str "null"
  | JBool true => str "true"
  | JBool false => str "false"
  | JNumber text => text
  | JString s => QuoteJSONString s
  | JArray l =>
      let fix elements (l : list JSON) : jsstring :=
        match l with
        | [] => []
        | [x] => JSON_stringify x
        | x :: l' => JSON_stringify x ++ COMMA ++ elements l'
        end in
      str "[" ++ elements l ++ str "]"
  | JObject props =>
      let fix members (ps : list (jsstring * JSON)) : jsstring :=
        match ps with
        | [] => []
        | [(k, x)] => QuoteJSONString k ++ str ":" ++ JSON_stringify x
        | (k, x) :: ps' =>
            QuoteJSONString k ++ str ":" ++ JSON_stringify x ++ COMMA ++ members ps'
        end in
      str "{" ++ members props ++ str "}"
  end.

(** *** [Date.prototype.toISOString] *)

(** Exactly [w] decimal digits of [n], most significant first. *)
Fixpoint digits_rev (w : nat) (n : Z) : jsstring :=
  match w with
  | O => []
  | S w' => Z.to_N (48 + n mod 10) :: digits_rev w' (n / 10)
  end.

Definition pad_digits (w : nat) (n : Z) : jsstring := rev (digits_rev w n).

Definition msPerDay : Z := 86400000.

(** Year, month and day of the day number [days] (days since 1970-01-01) in
    the proleptic Gregorian calendar. *)
Definition civil_from_days (days : Z) : Z * Z * Z :=
  let z := days + 719468 in
  let era := z / 146097 in
  let doe := z - era * 146097 in
  let yoe := (doe - doe / 1460 + doe / 36524 - doe / 146096) / 365 in
  let doy := doe - (365 * yoe + yoe / 4 - yoe / 100) in
  let mp := (5 * doy + 2) / 153 in
  let d := doy - (153 * mp + 2) / 5 + 1 in
  let m := if mp <? 10 then mp + 3 else mp - 9 in
  let y := yoe + era * 400 + (if m <=? 2 then 1 else 0) in
  (y, m, d).

Definition iso_year (y : Z) : jsstring :=
  if (0 <=? y) && (y <=? 9999) then pad_digits 4 y
  else (if y <? 0 then str "-" else str "+") ++ pad_digits 6 (Z.abs y).

Definition range_error : JsError :=
  mkError (str "RangeError") (str "Invalid time value").

(** [d.toISOString()]: [YYYY-MM-DDTHH:mm:ss.sssZ], with a signed six-digit
    year outside 0..9999; it throws on the Invalid Date. *)
Definition toISOString (d : Date) : Result jsstring :=
  match d with
  | InvalidDate => Throw range_error
  | ValidDate t =>
      let '(y, m, dd) := civil_from_days (t / msPerDay) in
      let ms := t mod msPerDay in
      Ok (iso_year y ++ str "-" ++ pad_digits 2 m ++ str "-" ++ pad_digits 2 dd
          ++ str "T" ++ pad_digits 2 (ms / 3600000)
          ++ str ":" ++ pad_digits 2 (ms / 60000 mod 60)
          ++ str ":" ++ pad_digits 2 (ms / 1000 mod 60)
          ++ str "." ++ pad_digits 3 (ms mod 1000) ++ str "Z")
  end.

(** *** Parsing functions of the platform

    [JSON.parse] (which throws a SyntaxError on malformed text) and the
    [Date] constructor applied to a string (whose result is the Invalid Date
    when the text is not recognised; which texts are recognised beyond the
    ISO format is left to the engine). The repository is modelled over any
    such pair of functions. *)
Class Platform := {
  JSON_parse : jsstring -> Result JSON;
  Date_of_string : jsstring -> Date
}.

(** *** [localStorage]

    The stored items, the capacity of the origin, and the calls made so far
    (most recent first). *)
Inductive StorageCall :=
| call_getItem (key : jsstring)
| call_setItem (key value : jsstring)
| call_removeItem (key : jsstring).

Record LocalStorage := mkStorage {
  items : gmap jsstring jsstring;
  quota : Z;
  calls : list StorageCall
}.

Definition used_space (m : gmap jsstring jsstring) : Z :=
  map_fold (fun k v acc => js_length k + js_length v + acc) 0 m.

Definition quota_error : JsError :=
  mkError (str "QuotaExceededError") (str "The quota has been exceeded.").

Definition getItem (key : jsstring) (st : LocalStorage)
  : option jsstring * LocalStorage :=
  (items st !! key,
   mkStorage (items st) (quota st) (call_getItem key :: calls st)).

(** [setItem] stores the value, or throws the QuotaExceededError and stores
    nothing when the items would no longer fit. *)
Definition setItem (key value : jsstring) (st : LocalStorage)
  : Result unit * LocalStorage :=
  let items' := <[key := value]> (items st) in
  let log := call_setItem key value :: calls st in
  if used_space items' >? quota st
  then (Throw quota_error, mkStorage (items st) (quota st) log)
  else (Ok tt, mkStorage items' (quota st) log).

Definition removeItem (key : jsstring) (st : LocalStorage) : LocalStorage :=
  mkStorage (delete key (items st)) (quota st) (call_removeItem key :: calls st).

(** ** LocalStorageTaskRepository *)

Definition STORAGE_KEY : jsstring := str "todoapp_tasks_v1".
Definition MAX_STORAGE_SIZE : Z := 5 * 1024 * 1024.

Definition status_text (s : TaskStatus) : jsstring :=
  match s with pending => str "pending" | completed => str "completed" end.

(** The value of [this] inside a method: the repository object when the
    method is called on it, [undefined] when the method was taken off the
    object and is called as a plain function (class bodies are strict code). *)
Inductive ThisValue := this_undefined | this_repository.

Definition serializeTask (task : TaskEntity) : Result JSON :=
  match toISOString (createdAt task) with
  | Throw e => Throw e
  | Ok created =>
      match toISOString (updatedAt task) with
      | Throw e => Throw e
      | Ok updated =>
          Ok (JObject [(str "id", JString (id task));
                       (str "title", JString (title task));
                       (str "status", JString (status_text (status task)));
                       (str "createdAt", JString created);
                       (str "updatedAt", JString updated)])
      end
  end.

(** [typeof v === 'string'], giving the string. *)
Definition as_string (v : option JSON) : option jsstring :=
  match v with Some (JString s) => Some s | _ => None end.

(** [v === 'pending' || v === 'completed'], giving the status. *)
Definition as_status (v : option JSON) : option TaskStatus :=
  match as_string v with
  | Some s =>
      if jsstring_eqb s (str "pending") then Some pending
      else if jsstring_eqb s (str "completed") then Some completed
      else None
  | None => None
  end.

Definition isValidTaskData (data : JSON) : bool :=
  match data with
  | JObject _ | JArray _ =>        (* typeof data === 'object' && data !== null *)
      bool_decide (is_Some (as_string (get_property data "id")))
      && bool_decide (is_Some (as_string (get_property data "title")))
      && bool_decide (is_Some (as_status (get_property data "status")))
      && bool_decide (is_Some (as_string (get_property data "createdAt")))
      && bool_decide (is_Some (as_string (get_property data "updatedAt")))
  | _ => false
  end.

(** The body of [deserializeTask] is one [try] block whose [catch] returns
    [null]: with [this] undefined, reading [this.isValidTaskData] throws a
    TypeError and the result is [null], whatever [data] is. *)
Definition deserializeTask `{Platform} (this : ThisValue) (data : JSON)
  : option TaskEntity :=
  match this with
  | this_undefined => None
  | this_repository =>
      if negb (isValidTaskData data) then None
      else
        i ← as_string (get_property data "id");
        t ← as_string (get_property data "title");
        s ← as_status (get_property data "status");
        c ← as_string (get_property data "createdAt");
        u ← as_string (get_property data "updatedAt");
        Some {| id := i; title := t; status := s;
                createdAt := Date_of_string c;
                updatedAt := Date_of_string u |}
  end.

(** [arr.map(f)] with a callback that may throw: the first exception ends
    the loop. *)
Fixpoint map_result {A B} (f : A -> Result B) (l : list A) : Result (list B) :=
  match l with
  | [] => Ok []
  | x :: l' =>
      match f x with
      | Throw e => Throw e
      | Ok y =>
          match map_result f l' with
          | Throw e => Throw e
          | Ok ys => Ok (y :: ys)
          end
      end
  end.

(** [arr.filter(Boolean)] on an array of objects and [null]s. *)
Definition filter_Boolean {A} (l : list (option A)) : list A :=
  omap (fun x => x) l.

(** [findAll]: the promise always resolves, so the result is the list. In
    [parsed.map(this.deserializeTask)] the method is handed over without its
    object, and [map] calls it with [this] undefined; [filter(Boolean)]
    drops the [null]s. The messages to the console are not modelled. *)
Definition findAll `{Platform} (st : LocalStorage)
  : list TaskEntity * LocalStorage :=
  let '(data, st) := getItem STORAGE_KEY st in
  match data with
  | None | Some [] => ([], st)                       (* !data *)
  | Some data =>
      match JSON_parse data with
      | Throw _ => ([], st)                          (* catch *)
      | Ok (JArray parsed) =>
          (filter_Boolean (List.map (deserializeTask this_undefined) parsed), st)
      | Ok _ => ([], st)                             (* !Array.isArray(parsed) *)
      end
  end.

(** [JSON.stringify(tasks.map(this.serializeTask))] *)
Definition serialize_tasks (tasks : list TaskEntity) : Result jsstring :=
  match map_result serializeTask tasks with
  | Throw e => Throw e
  | Ok records => Ok (JSON_stringify (JArray records))
  end.

(** The [try] block of [save]. *)
Definition save_try (tasks : list TaskEntity) (st : LocalStorage)
  : Result unit * LocalStorage :=
  match serialize_tasks tasks with
  | Throw e => (Throw e, st)
  | Ok serialized =>
      if js_length serialized >? MAX_STORAGE_SIZE
      then (Throw (Error "Data exceeds maximum storage size"), st)
      else setItem STORAGE_KEY serialized st
  end.

(** [save]: the [catch] block turns whatever was thrown into one of two
    errors. *)
Definition save (tasks : list TaskEntity) (st : LocalStorage)
  : Result unit * LocalStorage :=
  match save_try tasks st with
  | (Ok tt, st') => (Ok tt, st')
  | (Throw error, st') =>
      if jsstring_eqb (name error) (str "QuotaExceededError")
      then (Throw (Error "Storage quota exceeded. Please clear some tasks."), st')
      else (Throw (mkError (str "Error")
                     (str "Failed to save tasks: " ++ message error)), st')
  end.

Definition clear (st : LocalStorage) : LocalStorage :=
  removeItem STORAGE_KEY st.

Definition findById `{Platform} (wanted : jsstring) (st : LocalStorage)
  : option TaskEntity * LocalStorage :=
  let '(tasks, st) := findAll st in
  (List.find (fun task => jsstring_eqb (id task) wanted) tasks, st).

(** ** A reference platform

    One pair of parsing functions to run the repository on: [JSON.parse]
    after the JSON grammar, and a [Date] constructor that recognises the
    format [toISOString] writes (an engine recognises more texts than this
    one does). *)

Definition is_json_ws (c : N) : bool :=
  ((c =? 32) || (c =? 9) || (c =? 10) || (c =? 13))%N.

Fixpoint skip_json_ws (s : jsstring) : jsstring :=
  match s with
  | c :: s' => if is_json_ws c then skip_json_ws s' else s
  | [] => []
  end.

Definition is_digit (c : N) : bool := ((48 <=? c) && (c <=? 57))%N.

Definition hex_value (c : N) : option N :=
  (if is_digit c then Some (c - 48)
   else if (97 <=? c) && (c <=? 102) then Some (c - 87)
   else if (65 <=? c) && (c <=? 70) then Some (c - 55)
   else None)%N.

(** The code unit a one-letter escape stands for. *)
Definition unescape (e : N) : option N :=
  (if e =? 34 then Some 34 else if e =? 92 then Some 92
   else if e =? 47 then Some 47 else if e =? 98 then Some 8
   else if e =? 102 then Some 12 else if e =? 110 then Some 10
   else if e =? 114 then Some 13 else if e =? 116 then Some 9
   else None)%N.

Definition prepend {B} (c : N) (r : option (jsstring * B)) : option (jsstring * B) :=
  match r with Some (cs, rest) => Some (c :: cs, rest) | None => None end.

(** The characters of a string literal up to its closing quote, and what
    follows the quote. *)
Fixpoint parse_string_chars (s : jsstring) : option (jsstring * jsstring) :=
  match s with
  | [] => None
  | c :: s' =>
      if (c =? 34)%N then Some ([], s')
      else if (c =? 92)%N then
        match s' with
        | e :: s'' =>
            if (e =? 117)%N then
              match s'' with
              | h1 :: h2 :: h3 :: h4 :: s3 =>
                  match hex_value h1, hex_value h2, hex_value h3, hex_value h4 with
                  | Some a, Some b, Some c', Some d =>
                      prepend (a * 4096 + b * 256 + c' * 16 + d)%N
                        (parse_string_chars s3)
                  | _, _, _, _ => None
                  end
              | _ => None
              end
            else match unescape e with
                 | Some u => prepend u (parse_string_chars s'')
                 | None => None
                 end
        | [] => None
        end
      else if (c <? 32)%N then None
      else prepend c (parse_string_chars s')
  end.

Fixpoint span_digits (s : jsstring) : jsstring * jsstring :=
  match s with
  | c :: s' =>
      if is_digit c then let '(d, r) := span_digits s' in (c :: d, r)
      else ([], s)
  | [] => ([], [])
  end.

Definition is_nil {B} (l : list B) : bool :=
  match l with [] => true | _ => false end.

(** The text of a number literal, and what follows it. *)
Definition parse_number (s : jsstring) : option (jsstring * jsstring) :=
  let '(sign, s1) :=
    match s with
    | c :: s' => if (c =? 45)%N then ([c], s') else ([], s)
    | [] => ([], s)
    end in
  let '(int, s2) := span_digits s1 in
  match int with
  | [] => None
  | d :: ds =>
      if (d =? 48)%N && negb (is_nil ds) then None
      else
        '(frac, s3) ←
          match s2 with
          | c :: s' =>
              if (c =? 46)%N then
                let '(fr, r) := span_digits s' in
                if is_nil fr then None else Some (c :: fr, r)
              else Some ([], s2)
          | [] => Some ([], s2)
          end;
        '(exp, s4) ←
          match s3 with
          | c :: s' =>
              if (c =? 101)%N || (c =? 69)%N then
                let '(esign, s'') :=
                  match s' with
                  | g :: t => if (g =? 43)%N || (g =? 45)%N then ([g], t) else ([], s')
                  | [] => ([], s')
                  end in
                let '(ex, r) := span_digits s'' in
                if is_nil ex then None else Some (c :: esign ++ ex, r)
              else Some ([], s3)
          | [] => Some ([], s3)
          end;
        Some (sign ++ int ++ frac ++ exp, s4)
  end.

Fixpoint strip_prefix (p s : jsstring) : option jsstring :=
  match p, s with
  | [], _ => Some s
  | a :: p', b :: s' => if (a =? b)%N then strip_prefix p' s' else None
  | _ :: _, [] => None
  end.

(** Defining a property: a later member with the same name replaces the
    value of the earlier one. *)
Fixpoint set_property (k : jsstring) (v : JSON) (props : list (jsstring * JSON))
  : list (jsstring * JSON) :=
  match props with
  | [] => [(k, v)]
  | (k', v') :: props' =>
      if jsstring_eqb k' k then (k', v) :: props'
      else (k', v') :: set_property k v props'
  end.

Definition define_properties (members : list (jsstring * JSON))
  : list (jsstring * JSON) :=
  fold_left (fun acc kv => set_property (fst kv) (snd kv) acc) members [].

Fixpoint parse_value (fuel : nat) (s : jsstring) : option (JSON * jsstring) :=
  match fuel with
  | O => None
  | S fuel' =>
      match skip_json_ws s with
      | [] => None
      | c :: s1 =>
          if (c =? 123)%N then                       (* an object *)
            match skip_json_ws s1 with
            | d :: s2 =>
                if (d =? 125)%N then Some (JObject [], s2)
                else '(ms, r) ← parse_members fuel' s1;
                     Some (JObject (define_properties ms), r)
            | [] => None
            end
          else if (c =? 91)%N then                   (* an array *)
            match skip_json_ws s1 with
            | d :: s2 =>
                if (d =? 93)%N then Some (JArray [], s2)
                else '(vs, r) ← parse_elements fuel' s1; Some (JArray vs, r)
            | [] => None
            end
          else if (c =? 34)%N then
            '(chars, r) ← parse_string_chars s1; Some (JString chars, r)
          else if (c =? 116)%N then
            r ← strip_prefix (str "rue") s1; Some (JBool true, r)
          else if (c =? 102)%N then
            r ← strip_prefix (str "alse") s1; Some (JBool false, r)
          else if (c =? 110)%N then
            r ← strip_prefix (str "ull") s1; Some (JNull, r)
          else '(text, r) ← parse_number (c :: s1); Some (JNumber text, r)
      end
  end
with parse_elements (fuel : nat) (s : jsstring) : option (list JSON * jsstring) :=
  match fuel with
  | O => None
  | S fuel' =>
      '(v, s1) ← parse_value fuel' s;
      match skip_json_ws s1 with
      | c :: s2 =>
          if (c =? 44)%N then
            '(vs, r) ← parse_elements fuel' s2; Some (v :: vs, r)
          else if (c =? 93)%N then Some ([v], s2)
          else None
      | [] => None
      end
  end
with parse_members (fuel : nat) (s : jsstring)
  : option (list (jsstring * JSON) * jsstring) :=
  match fuel with
  | O => None
  | S fuel' =>
      match skip_json_ws s with
      | q :: s0 =>
          if (q =? 34)%N then
            '(k, s1) ← parse_string_chars s0;
            match skip_json_ws s1 with
            | c :: s2 =>
                if (c =? 58)%N then
                  '(v, s3) ← parse_value fuel' s2;
                  match skip_json_ws s3 with
                  | d :: s4 =>
                      if (d =? 44)%N then
                        '(ms, r) ← parse_members fuel' s4; Some ((k, v) :: ms, r)
                      else if (d =? 125)%N then Some ([(k, v)], s4)
                      else None
                  | [] => None
                  end
                else None
            | [] => None
            end
          else None
      | [] => None
      end
  end.

Definition syntax_error : JsError :=
  mkError (str "SyntaxError") (str "Unexpected token in JSON").

(** Each step of the parser that does not read a code unit is followed by
    one that does, so twice the length of the text is fuel enough. *)
Definition parse_json (text : jsstring) : Result JSON :=
  match parse_value (2 * length text + 2) text with
  | Some (v, rest) =>
      if is_nil (skip_json_ws rest) then Ok v else Throw syntax_error
  | None => Throw syntax_error
  end.

(** The value of a run of decimal digits. *)
Fixpoint digits_value (acc : Z) (s : jsstring) : option Z :=
  match s with
  | [] => Some acc
  | c :: s' =>
      if is_digit c then digits_value (10 * acc + Z.of_N (c - 48)) s' else None
  end.

Definition days_from_civil (y m d : Z) : Z :=
  let y' := if m <=? 2 then y - 1 else y in
  let era := y' / 400 in
  let yoe := y' - era * 400 in
  let mp := (m + 9) mod 12 in
  let doy := (153 * mp + 2) / 5 + d - 1 in
  let doe := yoe * 365 + yoe / 4 - yoe / 100 + doy in
  era * 146097 + doe - 719468.

(** [text.substring(a, a + n)] read as a number, when it is [n] digits. *)
Definition field (a n : nat) (text : jsstring) : option Z :=
  let f := firstn n (skipn a text) in
  if (length f =? n)%nat then digits_value 0 f else None.

Definition char_at (a : nat) (text : jsstring) : N := nth a text 0%N.

(** The date and time fields of [YYYY-MM-DDTHH:mm:ss.sssZ], the text after
    the year. *)
Definition parse_iso_fields (y : Z) (text : jsstring) : Date :=
  match field 1 2 text, field 4 2 text, field 7 2 text, field 10 2 text,
        field 13 2 text, field 16 3 text with
  | Some m, Some d, Some h, Some mi, Some sec, Some ms =>
      let days := days_from_civil y m d in
      let t := days * msPerDay + h * 3600000 + mi * 60000 + sec * 1000 + ms in
      if (length text =? 20)%nat
         && bool_decide (List.map (fun a => char_at a text) [0; 3; 6; 9; 12; 15; 19]%nat
                         = [45; 45; 84; 58; 58; 46; 90]%N)
         && bool_decide (civil_from_days days = (y, m, d))
         && ((h <=? 23) || (h =? 24) && (mi =? 0) && (sec =? 0) && (ms =? 0))
         && (mi <=? 59) && (sec <=? 59)
         && (Z.abs t <=? 8640000000000000)
      then ValidDate t else InvalidDate
  | _, _, _, _, _, _ => InvalidDate
  end.

Definition parse_iso_date (text : jsstring) : Date :=
  match text with
  | [] => InvalidDate
  | c :: rest =>
      if (c =? 43)%N || (c =? 45)%N then
        match field 0 6 rest with
        | Some y =>
            if (c =? 45)%N && (y =? 0) then InvalidDate
            else parse_iso_fields (if (c =? 45)%N then - y else y) (skipn 6 rest)
        | None => InvalidDate
        end
      else
        match field 0 4 text with
        | Some y => parse_iso_fields y (skipn 4 text)
        | None => InvalidDate
        end
  end.

Definition reference_platform : Platform :=
  {| JSON_parse := parse_json; Date_of_string := parse_iso_date |}.

Definition empty_storage (capacity : Z) : LocalStorage :=
  mkStorage ∅ capacity [].

(** ** Definitions that follow the specification's words *)

(** The words of a title: its maximal runs of code units that are not white
    space. *)
Fixpoint words (s : jsstring) : list jsstring :=
  match s with
  | [] => []
  | c :: s' =>
      if is_ws c then words s'
      else match s' with
           | [] => [[c]]
           | d :: _ =>
               if is_ws d then [c] :: words s'
               else match words s' with
                    | w :: ws => (c :: w) :: ws
                    | [] => [[c]]
                    end
           end
  end.

(** The words joined by single spaces. *)
Fixpoint unwords (ws : list jsstring) : jsstring :=
  match ws with
  | [] => []
  | [w] => w
  | w :: ws' => w ++ SPACE :: unwords ws'
  end.

(** No white space at the start, and none at the end. *)
Definition head_ok (u : jsstring) : bool :=
  match u with [] => true | c :: _ => negb (is_ws c) end.

Definition ends_ok (u : jsstring) : bool := head_ok (rev u).

(** "Trimmed, and internal white-space runs collapsed to single spaces". *)
Definition normalized_title (s : jsstring) : jsstring := unwords (words s).

(** [round(100 * completed / total)] on the exact quotient, a half rounded
    up; [0] for an empty list. *)
Definition exact_completion_rate (completed total : Z) : Z :=
  if total >? 0 then (200 * completed + total) / (2 * total) else 0.

(** The time value of a task's creation date ([0] for the Invalid Date). *)
Definition created (t : TaskEntity) : Z :=
  match createdAt t with ValidDate x => x | InvalidDate => 0 end.

Definition is_valid_date (d : Date) : bool :=
  match d with ValidDate _ => true | InvalidDate => false end.

Definition valid_creation (t : TaskEntity) : Prop :=
  is_valid_date (createdAt t) = true.

(** The order of a key on the elements of a list. *)
Definition key_order {A} (key : A -> Z) (a b : A) : Prop := key a <= key b.

(** The order the result of [sortTasksByCreationDate] is to follow. *)
Definition creation_order (descending : bool) (a b : TaskEntity) : Prop :=
  if descending then created b <= created a else created a <= created b.

(** [updatedAt >= createdAt], on valid dates. *)
Definition dates_ordered (t : TaskEntity) : Prop :=
  match createdAt t, updatedAt t with
  | ValidDate c, ValidDate u => c <= u
  | _, _ => False
  end.

(** ** Sample data *)

Definition sample_task (i ttl : string) (s : TaskStatus) (c u : Z) : TaskEntity :=
  {| id := str i; title := str ttl; status := s;
     createdAt := ValidDate c; updatedAt := ValidDate u |}.

(** Two hundred tasks, twenty-nine of them completed. *)
Definition tasks_29_of_200 : list TaskEntity :=
  repeat (sample_task "task_1" "done" completed 1000 2000) 29
  ++ repeat (sample_task "task_2" "to do" pending 1000 1000) 171.

(** Two hundred tasks, one of them completed. *)
Definition tasks_1_of_200 : list TaskEntity :=
  sample_task "task_1" "done" completed 1000 2000
  :: repeat (sample_task "task_2" "to do" pending 1000 1000) 199.

(** A task and the record [serializeTask] writes for it. *)
Definition stored_task : TaskEntity :=
  sample_task "task_1" "a b" pending 1700000000123 1700000000123.

Definition stored_record : JSON :=
  JObject [(str "id", JString (str "task_1"));
           (str "title", JString (str "a b"));
           (str "status", JString (str "pending"));
           (str "createdAt", JString (str "2023-11-14T22:13:20.123Z"));
           (str "updatedAt", JString (str "2023-11-14T22:13:20.123Z"))].

(** A record without [status]. *)
Definition record_without_status : JSON :=
  JObject [(str "id", JString (str "task_2"));
           (str "title", JString (str "c d"));
           (str "createdAt", JString (str "2023-11-14T22:13:20.123Z"));
           (str "updatedAt", JString (str "2023-11-14T22:13:20.123Z"))].

(** A record whose dates are strings that are not dates. *)
Definition record_with_bad_dates : JSON :=
  JObject [(str "id", JString (str "task_3"));
           (str "title", JString (str "e f"));
           (str "status", JString (str "completed"));
           (str "createdAt", JString (str "yesterday"));
           (str "updatedAt", JString (str "today"))].

(** A storage that holds the two records. *)
Definition storage_with_two_records : LocalStorage :=
  mkStorage
    {[ STORAGE_KEY := JSON_stringify (JArray [stored_record; record_without_status]) ]}
    10000000 [].

(** A task whose title alone is longer than the limit of the storage. *)
Definition oversized_task : TaskEntity :=
  {| id := str "task_1";
     title := repeat 97%N (Z.to_nat (MAX_STORAGE_SIZE + 1));
     status := pending;
     createdAt := ValidDate 1700000000123;
     updatedAt := ValidDate 1700000000123 |}.

Definition oversized_record : JSON :=
  JObject [(str "id", JString (str "task_1"));
           (str "title", JString (title oversized_task));
           (str "status", JString (str "pending"));
           (str "createdAt", JString (str "2023-11-14T22:13:20.123Z"));
           (str "updatedAt", JString (str "2023-11-14T22:13:20.123Z"))].

Definition limit_error : JsError :=
  Error "Failed to save tasks: Data exceeds maximum storage size".

(** Three tasks, the last two created in the same millisecond. *)
Definition tasks_with_a_tie : list TaskEntity :=
  [sample_task "task_1" "first" pending 2000 2000;
   sample_task "task_2" "second" pending 1000 1000;
   sample_task "task_3" "third" completed 1000 1500].

(** A word: not empty, and without white space. *)
Definition proper_word (w : jsstring) : bool :=
  negb (is_nil w) && forallb (fun c => negb (is_ws c)) w.

(** A title as the service stores it: of 1 to 255 code units, and left
    unchanged by [sanitizeTitle]. *)
Definition title_ok (t : jsstring) : Prop :=
  validateTitle t = true /\ sanitizeTitle t = t.

(** ** The rest of TaskService: searching *)

(** [s.startsWith(q)] *)
Fixpoint starts_with (q s : jsstring) : bool :=
  match q, s with
  | [], _ => true
  | a :: q', b :: s' => (a =? b)%N && starts_with q' s'
  | _ :: _, [] => false
  end.

(** [s.includes(q)] *)
Fixpoint includes (s q : jsstring) : bool :=
  starts_with q s
  || match s with
     | [] => false
     | _ :: s' => includes s' q
     end.

(** [searchTasks], over the platform's [String.prototype.toLowerCase] (a
    function of the Unicode case tables, taken as a parameter). *)
Definition searchTasks (toLowerCase : jsstring -> jsstring)
    (tasks : list TaskEntity) (query : jsstring) : list TaskEntity :=
  let normalizedQuery := trim (toLowerCase query) in
  if is_nil normalizedQuery then tasks
  else List.filter
         (fun task => includes (toLowerCase (title task)) normalizedQuery) tasks.

(** The lower case of the ASCII letters, other code units unchanged: what
    [toLowerCase] does on ASCII text. *)
Definition ascii_toLowerCase (s : jsstring) : jsstring :=
  List.map (fun c => if (65 <=? c) && (c <=? 90) then c + 32 else c)%N s.

(** ** The state updaters of the [useTasks] hook

    The functions the hook hands to [setTasks]; each maps the previous list
    of tasks to the next one. [now_at i] is the reading of the clock when the
    element at index [i] is updated. *)

Fixpoint map_result_from {A B} (i : nat) (f : nat -> A -> Result B) (l : list A)
  : Result (list B) :=
  match l with
  | [] => Ok []
  | x :: l' =>
      match f i x with
      | Throw e => Throw e
      | Ok y =>
          match map_result_from (S i) f l' with
          | Throw e => Throw e
          | Ok ys => Ok (y :: ys)
          end
      end
  end.

(** [prev => [...prev, newTask]] *)
Definition hook_addTask (newTask : TaskEntity) (prev : list TaskEntity)
  : list TaskEntity :=
  prev ++ [newTask].

(** [prev => prev.map(task => task.id === id ?
      taskService.updateTask(task, { title }) : task)] *)
Definition hook_updateTask (now_at : nat -> Z) (wanted new_title : jsstring)
    (prev : list TaskEntity) : Result (list TaskEntity) :=
  map_result_from 0
    (fun i task =>
       if jsstring_eqb (id task) wanted
       then updateTask (now_at i) task
              {| update_title := Some new_title; update_status := None |}
       else Ok task)
    prev.

(** [prev => prev.map(task => task.id === id ?
      taskService.toggleTaskStatus(task) : task)] *)
Definition hook_toggleTaskStatus (now_at : nat -> Z) (wanted : jsstring)
    (prev : list TaskEntity) : Result (list TaskEntity) :=
  map_result_from 0
    (fun i task =>
       if jsstring_eqb (id task) wanted
       then toggleTaskStatus (now_at i) task
       else Ok task)
    prev.

(** [prev => prev.filter(task => task.id !== id)] *)
Definition hook_deleteTask (wanted : jsstring) (prev : list TaskEntity)
  : list TaskEntity :=
  List.filter (fun task => negb (jsstring_eqb (id task) wanted)) prev.

(** [prev => prev.filter(task => task.status !== 'completed')] *)
Definition hook_clearCompleted (prev : list TaskEntity) : list TaskEntity :=
  List.filter (fun task => negb (status_eqb (status task) completed)) prev.

(** The [sortedTasks] and [filteredTasks] the hook derives from its state. *)
Definition hook_sortedTasks (sortByCreation : bool) (tasks : list TaskEntity)
  : list TaskEntity :=
  if sortByCreation then sortTasksByCreationDate tasks true else tasks.

Definition hook_filteredTasks (sortByCreation : bool) (tasks : list TaskEntity)
    (currentFilter : FilterType) : list TaskEntity :=
  filterTasks (hook_sortedTasks sortByCreation tasks) currentFilter.

(** The other status. *)
Definition other_status (s : TaskStatus) : TaskStatus :=
  match s with pending => completed | completed => pending end.

(** ** The errors of [save], and dates that the platform reads back *)

Definition quota_message_error : JsError :=
  Error "Storage quota exceeded. Please clear some tasks.".


(** The platform's [Date] constructor reads the ISO text of [d] back as
    [d]. *)
Definition reads_back_date `{Platform} (d : Date) : Prop :=
  exists text, toISOString d = Ok text /\ Date_of_string text = d.


(** An environment for [createTask] and the task it creates from the title
    ["  a   b  "]. *)
Definition sample_env : Env :=
  {| new_Date := 3000; Date_now := 3000; Math_random_36 := str "0.4fzyo82mvyr" |}.

Definition created_task : TaskEntity :=
  {| id := str "task_3000_4fzyo82mv"; title := str "a b"; status := pending;
     createdAt := ValidDate 3000; updatedAt := ValidDate 3000 |}.


(** ** The first version of the repository: class [TaskRepository]

    The file holds two versions of the repository. The first one stores the
    tasks one at a time: [save] reads the whole collection, puts the task in
    and writes the collection back. Its [findAll] calls [deserializeTask]
    through an arrow function, so [this] is the repository, and its
    [isValidTaskData] takes any string as a status: a task that was read
    from the storage has the status the record had. *)

Module TaskRepository.

Definition STORAGE_KEY : jsstring := str "todoapp_tasks_v1".

(** A task object at run time. *)
Record Task := mkTask {
  id : jsstring;
  title : jsstring;
  status : jsstring;
  createdAt : Date;
  updatedAt : Date
}.

Definition serializeTask (task : Task) : Result JSON :=
  match toISOString (createdAt task) with
  | Throw e => Throw e
  | Ok created =>
      match toISOString (updatedAt task) with
      | Throw e => Throw e
      | Ok updated =>
          Ok (JObject [(str "id", JString (id task));
                       (str "title", JString (title task));
                       (str "status", JString (status task));
                       (str "createdAt", JString created);
                       (str "updatedAt", JString updated)])
      end
  end.

Definition isValidTaskData (data : JSON) : bool :=
  match data with
  | JObject _ | JArray _ =>        (* typeof data === 'object' && data !== null *)
      bool_decide (is_Some (as_string (get_property data "id")))
      && bool_decide (is_Some (as_string (get_property data "title")))
      && bool_decide (is_Some (as_string (get_property data "status")))
      && bool_decide (is_Some (as_string (get_property data "createdAt")))
      && bool_decide (is_Some (as_string (get_property data "updatedAt")))
  | _ => false
  end.

(** Nothing in the [try] block throws once the data is valid: the [Date]
    constructor gives the Invalid Date for a text it does not recognise. *)
Definition deserializeTask `{Platform} (data : JSON) : option Task :=
  if negb (isValidTaskData data) then None
  else
    i ← as_string (get_property data "id");
    t ← as_string (get_property data "title");
    s ← as_string (get_property data "status");
    c ← as_string (get_property data "createdAt");
    u ← as_string (get_property data "updatedAt");
    Some {| id := i; title := t; status := s;
            createdAt := Date_of_string c;
            updatedAt := Date_of_string u |}.

Definition findAll `{Platform} (st : LocalStorage) : list Task * LocalStorage :=
  let '(data, st) := getItem STORAGE_KEY st in
  match data with
  | None | Some [] => ([], st)                       (* !data *)
  | Some data =>
      match JSON_parse data with
      | Throw _ => ([], st)                          (* catch *)
      | Ok (JArray tasks) =>
          (filter_Boolean (List.map deserializeTask tasks), st)
      | Ok _ => ([], st)                             (* !Array.isArray(tasks) *)
      end
  end.

Definition findById `{Platform} (wanted : jsstring) (st : LocalStorage)
  : option Task * LocalStorage :=
  let '(tasks, st) := findAll st in
  (List.find (fun task => jsstring_eqb (id task) wanted) tasks, st).

Definition persist_error : JsError :=
  Error "Failed to save tasks to localStorage".

(** [persistTasks]: the [catch] block replaces whatever was thrown. *)
Definition persistTasks (tasks : list Task) (st : LocalStorage)
  : Result unit * LocalStorage :=
  match map_result serializeTask tasks with
  | Throw _ => (Throw persist_error, st)
  | Ok serializedTasks =>
      match setItem STORAGE_KEY (JSON_stringify (JArray serializedTasks)) st with
      | (Ok _, st) => (Ok tt, st)
      | (Throw _, st) => (Throw persist_error, st)
      end
  end.

(** [arr.findIndex(p)], with [None] for [-1]. *)
Fixpoint findIndex {A} (p : A -> bool) (l : list A) : option nat :=
  match l with
  | [] => None
  | x :: l' => if p x then Some O else S <$> findIndex p l'
  end.

(** What [save] does to the array between reading and writing it. *)
Definition put_task (task : Task) (tasks : list Task) : list Task :=
  match findIndex (fun t => jsstring_eqb (id t) (id task)) tasks with
  | Some existingIndex => <[existingIndex := task]> tasks
  | None => tasks ++ [task]
  end.

Definition save `{Platform} (task : Task) (st : LocalStorage)
  : Result Task * LocalStorage :=
  let '(tasks, st) := findAll st in
  match persistTasks (put_task task tasks) st with
  | (Ok _, st) => (Ok task, st)
  | (Throw e, st) => (Throw e, st)
  end.

Definition clear (st : LocalStorage) : LocalStorage :=
  removeItem STORAGE_KEY st.

Definition delete `{Platform} (wanted : jsstring) (st : LocalStorage)
  : Result bool * LocalStorage :=
  let '(tasks, st) := findAll st in
  let initialLength := length tasks in
  let filteredTasks :=
    List.filter (fun task => negb (jsstring_eqb (id task) wanted)) tasks in
  if negb (length filteredTasks =? initialLength)%nat
  then match persistTasks filteredTasks st with
       | (Ok _, st) => (Ok true, st)
       | (Throw e, st) => (Throw e, st)
       end
  else (Ok false, st).

End TaskRepository.

(** The dates of a run-time task are read back by the platform, and so is
    the text [JSON.stringify] writes for a list of records. *)
Definition reads_back_task `{Platform} (t : TaskRepository.Task) : Prop :=
  reads_back_date (TaskRepository.createdAt t)
  /\ reads_back_date (TaskRepository.updatedAt t).

Definition reads_back_records `{Platform} (records : list JSON) : Prop :=
  JSON_parse (JSON_stringify (JArray records)) = Ok (JArray records).

(** A run-time task that is not in [storage_with_two_records]. *)
Definition archived_task : TaskRepository.Task :=
  TaskRepository.mkTask (str "task_7") (str "old") (str "archived")
    (ValidDate 1700000000123) (ValidDate 1700000000999).

(** ** The first version of the hook: the order of the tasks shown *)

Definition first_hook_sortedTasks (sortByCreation : bool)
    (tasks : list TaskEntity) : list TaskEntity :=
  if sortByCreation
  then Array_sort (fun a b => number_sub (getTime (createdAt b))
                                         (getTime (createdAt a))) tasks
  else tasks.

(** * Properties *)

(** Splits a conjunction into its parts, and nothing else. *)
Ltac split_conj := repeat match goal with |- _ /\ _ => split end.

(** ** Filtering *)

Lemma status_eqb_eq a b : status_eqb a b = true <-> a = b.
Proof. destruct a, b; simpl; split; congruence. Qed.

Lemma status_pending_or_completed s :
  status_eqb s pending = negb (status_eqb s completed).
Proof. now destruct s. Qed.

Lemma filter_sublist {A} (p : A -> bool) (l : list A) :
  sublist (List.filter p l) l.
Proof.
  induction l as [|x l IH]; simpl.
  - constructor.
  - destruct (p x); now constructor.
Qed.

Lemma filter_split_perm {A} (p q : A -> bool) (l : list A) :
  (forall x, p x = negb (q x)) ->
  Permutation (List.filter p l ++ List.filter q l) l.
Proof.
  intros Hpq. induction l as [|x l IH]; simpl; [constructor|].
  rewrite Hpq. destruct (q x); simpl.
  - symmetry. apply Permutation_cons_app. now symmetry.
  - now constructor.
Qed.

(** C6. [filterTasks] with [all] returns the list itself; the results for
    [active] and [completed] together are a rearrangement of the list, no
    task is in both, every task of the list is in one of them, and each
    result keeps the order of the input (it is a sublist of it). The input
    is a value, so nothing is mutated. *)
Theorem filterTasks_partition (tasks : list TaskEntity) :
  filterTasks tasks all = tasks
  /\ Permutation (filterTasks tasks active ++ filterTasks tasks filter_completed)
       tasks
  /\ (forall t, In t (filterTasks tasks active) ->
                In t (filterTasks tasks filter_completed) -> False)
  /\ (forall t, In t tasks ->
                In t (filterTasks tasks active)
                \/ In t (filterTasks tasks filter_completed))
  /\ (forall t, In t (filterTasks tasks active) <->
                In t tasks /\ status t = pending)
  /\ (forall t, In t (filterTasks tasks filter_completed) <->
                In t tasks /\ status t = completed)
  /\ (forall f, sublist (filterTasks tasks f) tasks).
Proof.
  unfold filterTasks; simpl.
  assert (Hact : forall t, In t (List.filter
              (fun task => status_eqb (status task) pending) tasks)
            <-> In t tasks /\ status t = pending).
  { intros t. rewrite filter_In, status_eqb_eq. tauto. }
  assert (Hcom : forall t, In t (List.filter
              (fun task => status_eqb (status task) completed) tasks)
            <-> In t tasks /\ status t = completed).
  { intros t. rewrite filter_In, status_eqb_eq. tauto. }
  split; [|split; [|split; [|split; [|split; [|split]]]]].
  - clear Hact Hcom. induction tasks as [|x l IH]; simpl; [reflexivity|].
    now rewrite IH.
  - apply filter_split_perm. intros x. apply status_pending_or_completed.
  - intros t Ha Hc. apply Hact in Ha. apply Hcom in Hc. destruct Ha, Hc. congruence.
  - intros t Ht. rewrite Hact, Hcom. destruct (status t); tauto.
  - exact Hact.
  - exact Hcom.
  - intros f. apply filter_sublist.
Qed.

(** ** Statistics *)

Lemma round_nearest_even_le a b K :
  0 < b -> a <= K * b -> round_nearest_even a b <= K.
Proof.
  intros Hb Ha. unfold round_nearest_even.
  pose proof (Z.div_mod a b ltac:(lia)) as Hdiv.
  pose proof (Z.mod_pos_bound a b Hb) as Hmod.
  assert (Hk : a / b <= K) by nia.
  assert (Hk' : a mod b = 0 \/ a / b < K) by nia.
  destruct (Z.ltb_spec (2 * (a mod b)) b); [lia|].
  destruct (Z.ltb_spec b (2 * (a mod b))); [lia|].
  destruct (Z.even (a / b)); lia.
Qed.

Lemma round_nearest_even_nonneg a b :
  0 <= a -> 0 < b -> 0 <= round_nearest_even a b.
Proof.
  intros Ha Hb. unfold round_nearest_even.
  pose proof (Z.div_pos a b Ha Hb).
  repeat match goal with |- context [if ?c then _ else _] => destruct c end; lia.
Qed.

(** A quotient that does not exceed the integer [K] rounds to a double that
    does not exceed [K]: the exponent stays non-positive, so [K] is a
    multiple of the unit in the last place. *)
Lemma fl_bound p q K :
  0 <= p -> 0 < q -> 0 <= K < 2 ^ 53 -> p <= K * q ->
  expo (fl p q) <= 0 /\ 0 <= mant (fl p q) <= K * 2 ^ (- expo (fl p q)).
Proof.
  intros Hp Hq HK Hle. unfold fl.
  destruct (Z.eqb_spec p 0) as [->|Hp0]; simpl; [lia|].
  set (e0 := Z.log2 p - Z.log2 q - 53).
  set (n := scale_num p e0 / scale_den q e0).
  set (e := Z.max (if n <? 2 ^ 53 then e0 else e0 + 1) (-1074)).
  assert (He : e <= 0).
  { subst e. apply Z.max_lub; [|lia].
    destruct (Z.ltb_spec n (2 ^ 53)) as [Hn|Hn].
    - destruct (Z_le_gt_dec e0 0) as [|Hpos]; [assumption|exfalso].
      pose proof (Z.log2_spec p ltac:(lia)) as [Hlo _].
      pose proof (Z.log2_spec q Hq) as [_ Hhi].
      pose proof (Z.log2_nonneg q) as Hlq.
      assert (Hpow : 2 ^ (Z.succ (Z.log2 q)) * 2 ^ 53 <= 2 ^ Z.log2 p).
      { rewrite <- Z.pow_add_r by lia. apply Z.pow_le_mono_r; lia. }
      nia.
    - destruct (Z_le_gt_dec (e0 + 1) 0) as [|Hpos]; [assumption|exfalso].
      subst n. unfold scale_num, scale_den in Hn.
      destruct (Z.ltb_spec e0 0) as [|_]; [lia|].
      assert (H1 : 1 <= 2 ^ e0) by (apply Z.lt_pred_le, Z.pow_pos_nonneg; lia).
      assert (Hd : 0 < q * 2 ^ e0) by nia.
      pose proof (Z.mul_div_le p (q * 2 ^ e0) Hd) as Hmul.
      nia. }
  assert (Hnum : scale_num p e = p * 2 ^ (- e)).
  { unfold scale_num. destruct (Z.ltb_spec e 0); [reflexivity|].
    replace e with 0 by lia. simpl. lia. }
  assert (Hden : scale_den q e = q).
  { unfold scale_den. destruct (Z.ltb_spec e 0); [reflexivity|].
    replace e with 0 by lia. simpl. lia. }
  rewrite Hnum, Hden.
  assert (Hpw : 0 < 2 ^ (- e)) by (apply Z.pow_pos_nonneg; lia).
  split; [exact He|split].
  - apply round_nearest_even_nonneg; nia.
  - apply round_nearest_even_le; nia.
Qed.

Lemma completion_rate_bounds c t :
  0 <= c <= t -> 0 < t -> 0 <= Math_round (fl_mul (fl_div c t) 100) <= 100.
Proof.
  intros Hc Ht. unfold fl_div.
  destruct (fl_bound c t 1 ltac:(lia) Ht ltac:(lia) ltac:(lia)) as (He & Hm0 & Hm1).
  set (d := fl c t) in *.
  assert (Hpw : 0 < 2 ^ (- expo d)) by (apply Z.pow_pos_nonneg; lia).
  unfold fl_mul, scale_num, scale_den.
  destruct (Z.ltb_spec (- expo d) 0) as [|_]; [lia|].
  destruct (fl_bound (mant d * 100) (1 * 2 ^ (- expo d)) 100
              ltac:(lia) ltac:(lia) ltac:(lia) ltac:(lia)) as (He' & Hm0' & Hm1').
  set (x := fl (mant d * 100) (1 * 2 ^ (- expo d))) in *.
  assert (Hpw' : 0 < 2 ^ (- expo x)) by (apply Z.pow_pos_nonneg; lia).
  unfold Math_round. destruct (Z.leb_spec 0 (expo x)) as [H0|H0].
  - replace (expo x) with 0 in * by lia. simpl in *. lia.
  - split.
    + apply Z.div_pos; lia.
    + apply Z.lt_succ_r, Z.div_lt_upper_bound; lia.
Qed.

Lemma round_nearest_even_error a b :
  0 < b -> - b <= 2 * (round_nearest_even a b * b - a) <= b.
Proof.
  intros Hb. unfold round_nearest_even.
  pose proof (Z.div_mod a b ltac:(lia)) as Hdiv.
  pose proof (Z.mod_pos_bound a b Hb) as Hmod.
  destruct (Z.ltb_spec (2 * (a mod b)) b); [nia|].
  destruct (Z.ltb_spec b (2 * (a mod b))); [nia|].
  destruct (Z.even (a / b)); nia.
Qed.

Lemma fl_normal p q :
  0 < p -> 0 < q -> -1074 <= Z.log2 p - Z.log2 q - 53 ->
  exists e,
    fl p q = mkDouble (round_nearest_even (scale_num p e) (scale_den q e)) e
    /\ Z.log2 p - Z.log2 q - 53 <= e <= Z.log2 p - Z.log2 q - 52.
Proof.
  intros Hp Hq He0. unfold fl.
  destruct (Z.eqb_spec p 0); [lia|].
  set (e0 := Z.log2 p - Z.log2 q - 53) in *.
  destruct (_ <? 2 ^ 53).
  - exists e0. rewrite Z.max_l by lia. split; [reflexivity|lia].
  - exists (e0 + 1). rewrite Z.max_l by lia. split; [reflexivity|lia].
Qed.

Lemma rounding_transfer c t m E :
  0 < t -> 0 < E -> 4 * Z.abs (m * t - 100 * c * E) < E ->
  ((200 * c + t) mod (2 * t) <> 0 ->
     (2 * m + E) / (2 * E) = (200 * c + t) / (2 * t))
  /\ ((2 * m + E) / (2 * E) = (200 * c + t) / (2 * t)
      \/ (2 * m + E) / (2 * E) = (200 * c + t) / (2 * t) - 1).
Proof.
  intros Ht HE HD.
  pose proof (Z.div_mod (200 * c + t) (2 * t) ltac:(lia)) as Hdiv.
  pose proof (Z.mod_pos_bound (200 * c + t) (2 * t) ltac:(lia)) as Hmod.
  set (R := (200 * c + t) / (2 * t)) in *.
  set (r := (200 * c + t) mod (2 * t)) in *.
  set (D := m * t - 100 * c * E) in *.
  assert (Hkey : (2 * m + E - 2 * E * R) * t = 2 * D + E * r) by (subst D; nia).
  assert (Hr : r = 0 \/ 1 <= r) by lia.
  split.
  - intros Hne. symmetry. apply (Z.div_unique _ _ _ (2 * m + E - 2 * E * R)); [|lia].
    left. split.
    + assert (0 <= (2 * m + E - 2 * E * R) * t) by nia. nia.
    + assert ((2 * m + E - 2 * E * R) * t < 2 * E * t) by nia. nia.
  - destruct Hr as [Hr|Hr].
    + destruct (Z_le_gt_dec 0 D).
      * left. symmetry. apply (Z.div_unique _ _ _ (2 * m + E - 2 * E * R)); [|lia].
        left. split.
        -- assert (0 <= (2 * m + E - 2 * E * R) * t) by nia. nia.
        -- assert ((2 * m + E - 2 * E * R) * t < 2 * E * t) by nia. nia.
      * right. symmetry.
        apply (Z.div_unique _ _ _ (2 * m + E - 2 * E * (R - 1))); [|lia].
        left. split.
        -- assert (0 <= (2 * m + E - 2 * E * (R - 1)) * t) by nia. nia.
        -- assert ((2 * m + E - 2 * E * (R - 1)) * t < 2 * E * t) by nia. nia.
    + left. symmetry. apply (Z.div_unique _ _ _ (2 * m + E - 2 * E * R)); [|lia].
      left. split.
      * assert (0 <= (2 * m + E - 2 * E * R) * t) by nia. nia.
      * assert ((2 * m + E - 2 * E * R) * t < 2 * E * t) by nia. nia.
Qed.

Lemma pow2_ge a b : 0 <= a <= b -> 2 ^ a <= 2 ^ b.
Proof. intros. apply Z.pow_le_mono_r; lia. Qed.

Lemma scale_neg p q e :
  e < 0 -> scale_num p e = p * 2 ^ (- e) /\ scale_den q e = q.
Proof.
  intros He. unfold scale_num, scale_den.
  destruct (Z.ltb_spec e 0); [auto|lia].
Qed.

Lemma scale_nonneg p q e :
  0 <= e -> scale_num p e = p /\ scale_den q e = q * 2 ^ e.
Proof.
  intros He. unfold scale_num, scale_den.
  destruct (Z.ltb_spec e 0); [lia|auto].
Qed.

(** The rate [calculateStats] computes is [(2 m + E) / (2 E)] for a double
    [m / E] that is within [1 / (4 t)] of the exact percentage. *)
Lemma completion_rate_value c t :
  1 <= c <= t -> t < 2 ^ 32 ->
  exists m E,
    Math_round (fl_mul (fl_div c t) 100) = (2 * m + E) / (2 * E)
    /\ 0 < E /\ 4 * Z.abs (m * t - 100 * c * E) < E.
Proof.
  intros Hc Ht.
  assert (Hlc : 0 <= Z.log2 c) by apply Z.log2_nonneg.
  assert (Hlct : Z.log2 c <= Z.log2 t) by (apply Z.log2_le_mono; lia).
  assert (Hlt : Z.log2 t < 32) by (apply Z.log2_lt_pow2; lia).
  destruct (fl_normal c t ltac:(lia) ltac:(lia) ltac:(lia)) as (e1 & Hfl1 & He1).
  unfold fl_div, fl_mul. rewrite Hfl1. cbn [mant expo].
  destruct (scale_neg c t e1 ltac:(lia)) as [-> ->].
  set (E1 := 2 ^ (- e1)).
  assert (HE1 : 2 ^ 52 <= E1) by (apply pow2_ge; lia).
  set (m1 := round_nearest_even (c * E1) t).
  destruct (scale_nonneg (m1 * 100) 1 (- e1) ltac:(lia)) as [-> ->]. fold E1.
  pose proof (round_nearest_even_error (c * E1) t ltac:(lia)) as Herr1.
  fold m1 in Herr1.
  assert (Hm1 : 0 < m1 <= E1).
  { split; [nia|]. apply round_nearest_even_le; nia. }
  assert (HlE1 : Z.log2 (1 * E1) = - e1).
  { rewrite Z.mul_1_l. apply Z.log2_pow2. lia. }
  assert (Hlp : 0 <= Z.log2 (m1 * 100) <= 6 - e1).
  { split; [apply Z.log2_nonneg|].
    apply Z.lt_succ_r, Z.log2_lt_pow2; [lia|].
    replace (Z.succ (6 - e1)) with (7 + - e1) by lia.
    rewrite Z.pow_add_r by lia. fold E1. lia. }
  destruct (fl_normal (m1 * 100) (1 * E1) ltac:(lia) ltac:(lia) ltac:(lia))
    as (e2 & Hfl2 & He2).
  rewrite Hfl2. unfold Math_round. cbn [mant expo].
  destruct (Z.leb_spec 0 e2) as [|_]; [lia|].
  destruct (scale_neg (m1 * 100) (1 * E1) e2 ltac:(lia)) as [-> ->].
  set (E2 := 2 ^ (- e2)).
  assert (HE2 : 2 ^ 46 <= E2) by (apply pow2_ge; lia).
  set (m2 := round_nearest_even (m1 * 100 * E2) (1 * E1)).
  pose proof (round_nearest_even_error (m1 * 100 * E2) (1 * E1) ltac:(lia)) as Herr2.
  fold m2 in Herr2.
  exists m2, E2. split; [reflexivity|]. split; [lia|].
  set (D := m2 * t - 100 * c * E2).
  assert (HD : 2 * (D * E1) = t * (2 * (m2 * (1 * E1) - m1 * 100 * E2))
                              + 100 * E2 * (2 * (m1 * t - c * E1))) by (subst D; ring).
  set (x2 := 2 * (m2 * (1 * E1) - m1 * 100 * E2)) in *.
  set (x1 := 2 * (m1 * t - c * E1)) in *.
  assert (Hup : 4 * (D * E1) < E2 * E1 /\ - (E2 * E1) < 4 * (D * E1)).
  { assert (Ha : t * - E1 <= t * x2 <= t * E1)
      by (split; apply Z.mul_le_mono_nonneg_l; lia).
    assert (Hb : 100 * E2 * - t <= 100 * E2 * x1 <= 100 * E2 * t)
      by (split; apply Z.mul_le_mono_nonneg_l; lia).
    assert (Hc1 : t * E1 < 2 ^ 32 * E1) by (apply Z.mul_lt_mono_pos_r; lia).
    assert (Hc2 : 2 ^ 46 * E1 <= E2 * E1) by (apply Z.mul_le_mono_nonneg_r; lia).
    assert (Hc3 : E2 * t < E2 * 2 ^ 32) by (apply Z.mul_lt_mono_pos_l; lia).
    assert (Hc4 : E2 * 2 ^ 52 <= E2 * E1) by (apply Z.mul_le_mono_nonneg_l; lia).
    lia. }
  destruct Hup as [Hup1 Hup2].
  assert (4 * D < E2) by (apply (Z.mul_lt_mono_pos_r E1); lia).
  assert (- E2 < 4 * D) by (apply (Z.mul_lt_mono_pos_r E1); lia).
  lia.
Qed.

(** Off the ties [calculateStats] computes the exact rounding, and at a tie
    that value or one less. *)
Lemma completion_rate_off_ties c t :
  0 <= c <= t -> 0 < t < 2 ^ 32 ->
  let code := Math_round (fl_mul (fl_div c t) 100) in
  ((200 * c + t) mod (2 * t) <> 0 -> code = (200 * c + t) / (2 * t))
  /\ (code = (200 * c + t) / (2 * t) \/ code = (200 * c + t) / (2 * t) - 1).
Proof.
  intros Hc Ht. cbn zeta.
  destruct (Z.eq_dec c 0) as [->|Hc0].
  { change (Math_round (fl_mul (fl_div 0 t) 100)) with 0.
    replace (200 * 0 + t) with t by lia.
    rewrite (Z.div_small t (2 * t)) by lia. auto. }
  destruct (completion_rate_value c t ltac:(lia) ltac:(lia)) as (m & E & -> & HE & HD).
  apply rounding_transfer; lia.
Qed.

Lemma calculateStats_rate_off_ties (tasks : list TaskEntity) :
  Z.of_nat (length tasks) < 2 ^ 32 ->
  let s := calculateStats tasks in
  ((200 * stat_completed s + total s) mod (2 * total s) <> 0 ->
     completionRate s = exact_completion_rate (stat_completed s) (total s))
  /\ (completionRate s = exact_completion_rate (stat_completed s) (total s)
      \/ completionRate s = exact_completion_rate (stat_completed s) (total s) - 1).
Proof.
  intros Hlen. unfold calculateStats, exact_completion_rate; cbn.
  pose proof (filter_length_le
                (fun t => status_eqb (status t) completed) tasks) as Hle.
  destruct (Z.gtb_spec (Z.of_nat (length tasks)) 0); [|auto].
  apply completion_rate_off_ties; lia.
Qed.

Lemma calculateStats_empty : calculateStats [] = mkStats 0 0 0 0.
Proof. reflexivity. Qed.

Lemma calculateStats_one_of_three (tasks : list TaskEntity) :
  length tasks = 3%nat ->
  length (List.filter (fun t => status_eqb (status t) completed) tasks) = 1%nat ->
  completionRate (calculateStats tasks) = 33.
Proof.
  intros Hlen Hdone. unfold calculateStats. rewrite Hlen, Hdone. reflexivity.
Qed.

(** C10. The fields of the statistics are consistent with one another:
    [0 <= completed <= total], [pending = total - completed >= 0] and
    [0 <= completionRate <= 100]. *)
Theorem calculateStats_consistent (tasks : list TaskEntity) :
  let s := calculateStats tasks in
  0 <= stat_completed s <= total s
  /\ stat_pending s = total s - stat_completed s
  /\ 0 <= stat_pending s
  /\ 0 <= completionRate s <= 100.
Proof.
  unfold calculateStats; simpl.
  pose proof (filter_length_le
                (fun t => status_eqb (status t) completed) tasks) as Hle.
  set (done := List.filter _ tasks) in *.
  repeat split; try lia.
  - destruct (Z.gtb_spec (Z.of_nat (length tasks)) 0); [|lia].
    apply completion_rate_bounds; lia.
  - destruct (Z.gtb_spec (Z.of_nat (length tasks)) 0); [|lia].
    apply completion_rate_bounds; lia.
Qed.

(** The model of the double-precision operations gives the values of the
    Standard Library's specification of binary64: for every quotient of
    [calculateStats] with at most 48 tasks, and at the two ties below. *)
Example double_model_agrees :
  forallb (fun t =>
    forallb (fun c =>
        same_value (SFdiv 53 1024 (SF64 c) (SF64 t)) (fl_div c t)
        && same_value (ieee_rate c t) (fl_mul (fl_div c t) 100))
      (upto (Z.to_nat t)))
    (List.tl (upto 48)) = true
  /\ ieee_rate 29 200 = S754_finite false 8162774324609023 (-49)
  /\ fl_mul (fl_div 29 200) 100 = mkDouble 8162774324609023 (-49)
  /\ same_value (ieee_rate 1 200) (fl_mul (fl_div 1 200) 100) = true.
Proof. split_conj; vm_compute; reflexivity. Qed.

(** C7. With 29 of 200 tasks completed the exact percentage is 14.5, which
    rounds to 15; [calculateStats] returns 14, because [29 / 200] is rounded
    to a double below 0.145 before it is multiplied by 100. With 1 of 200
    completed the exact percentage is 0.5 and [calculateStats] returns 1: the
    first tie goes down and the second up. *)
Theorem calculateStats_tie_below_half :
  calculateStats tasks_29_of_200 = mkStats 200 29 171 14
  /\ exact_completion_rate 29 200 = 15
  /\ calculateStats tasks_1_of_200 = mkStats 200 1 199 1
  /\ exact_completion_rate 1 200 = 1.
Proof. split_conj; vm_compute; reflexivity. Qed.

(** ** Updating *)

Lemma status_eqb_refl s : status_eqb s s = true.
Proof. now destruct s. Qed.

(** An empty patch returns the task as it is. *)
Lemma updateTask_empty_patch now (task : TaskEntity) :
  updateTask now task {| update_title := None; update_status := None |} = Ok task.
Proof. reflexivity. Qed.

(** A patch that only repeats the status returns the task as it is. *)
Lemma updateTask_same_status now (task : TaskEntity) :
  updateTask now task
    {| update_title := None; update_status := Some (status task) |} = Ok task.
Proof. unfold updateTask; simpl. now rewrite status_eqb_refl. Qed.

(** What [updateTask] returns, case by case. *)
Lemma updateTask_cases now (task : TaskEntity) (updates : TaskUpdateData) :
  updateTask now task updates =
  match update_title updates with
  | Some v =>
      if validateTitle (sanitizeTitle v) then
        Ok {| id := id task;
              title := sanitizeTitle v;
              status := match update_status updates with
                        | Some s => s
                        | None => status task
                        end;
              createdAt := createdAt task;
              updatedAt := ValidDate now |}
      else Throw title_error
  | None =>
      match update_status updates with
      | Some s =>
          if status_eqb s (status task) then Ok task
          else Ok {| id := id task; title := title task; status := s;
                     createdAt := createdAt task; updatedAt := ValidDate now |}
      | None => Ok task
      end
  end.
Proof.
  unfold updateTask. destruct task as [i t s c u], updates as [[v|] [s'|]]; simpl;
    try destruct (validateTitle (sanitizeTitle v)); simpl;
    try destruct (status_eqb_eq s' s) as [H1 H2];
    try destruct (status_eqb s' s) eqn:E; simpl; try reflexivity.
  rewrite (H1 eq_refl). reflexivity.
Qed.

(** Whatever the patch, the identifier and the creation date are kept. *)
Lemma updateTask_keeps_id now task updates task' :
  updateTask now task updates = Ok task' ->
  id task' = id task /\ createdAt task' = createdAt task.
Proof.
  rewrite updateTask_cases. intros H.
  destruct (update_title updates) as [v|].
  - destruct (validateTitle (sanitizeTitle v)); inversion H; subst; auto.
  - destruct (update_status updates) as [s|].
    + destruct (status_eqb s (status task)); inversion H; subst; auto.
    + inversion H; subst; auto.
Qed.

(** When the title or the status changes, [updatedAt] is the current time. *)
Lemma updateTask_change_sets_updatedAt now task updates task' :
  updateTask now task updates = Ok task' ->
  title task' <> title task \/ status task' <> status task ->
  updatedAt task' = ValidDate now.
Proof.
  rewrite updateTask_cases. intros H Hchg.
  destruct (update_title updates) as [v|].
  - destruct (validateTitle (sanitizeTitle v)); inversion H; subst; auto.
  - destruct (update_status updates) as [s|].
    + destruct (status_eqb s (status task)); inversion H; subst; simpl in *; tauto.
    + inversion H; subst; tauto.
Qed.

(** A patch that carries a title sets [updatedAt] to the current time, also
    when the title it carries is the task's own. *)
Lemma updateTask_title_patch_sets_updatedAt now task v s task' :
  updateTask now task {| update_title := Some v; update_status := s |} = Ok task' ->
  updatedAt task' = ValidDate now.
Proof.
  rewrite updateTask_cases; simpl.
  destruct (validateTitle (sanitizeTitle v)); intros H; inversion H; reflexivity.
Qed.

(** C1. A task whose title is [x] and that was last updated at time 1000 is
    updated at time 2000 with the patch [{title: "x"}]: the title is what it
    was, and yet [updatedAt] becomes 2000. *)
Theorem updateTask_same_title_moves_updatedAt :
  let task := sample_task "task_1" "x" pending 1000 1000 in
  sanitizeTitle (str "x") = title task
  /\ updateTask 2000 task
       {| update_title := Some (str "x"); update_status := None |}
     = Ok (sample_task "task_1" "x" pending 1000 2000).
Proof. split; reflexivity. Qed.

(** ** The order of the two dates *)

Lemma createTask_dates_equal env data task :
  createTask env data = Ok task ->
  updatedAt task = createdAt task /\ dates_ordered task /\ status task = pending.
Proof.
  unfold createTask. destruct (validateTitle _); simpl; intros H; inversion H.
  unfold dates_ordered; simpl. repeat split. lia.
Qed.

(** With a clock that does not run backwards, [updateTask] keeps
    [updatedAt >= createdAt]. *)
Lemma updateTask_keeps_dates_ordered now task updates task' u :
  dates_ordered task -> updatedAt task = ValidDate u -> u <= now ->
  updateTask now task updates = Ok task' ->
  dates_ordered task'.
Proof.
  intros Hord Hu Hnow. rewrite updateTask_cases. unfold dates_ordered in *.
  rewrite Hu in Hord.
  destruct (createdAt task) as [c|] eqn:Hc; [|contradiction].
  intros H.
  destruct (update_title updates) as [v|].
  - destruct (validateTitle (sanitizeTitle v)); inversion H; subst; simpl.
    rewrite ?Hc. lia.
  - destruct (update_status updates) as [s|].
    + destruct (status_eqb s (status task)); inversion H; subst; simpl;
        rewrite ?Hc, ?Hu; lia.
    + inversion H; subst. rewrite ?Hc, ?Hu. lia.
Qed.

Lemma toggleTaskStatus_keeps_dates_ordered now task task' u :
  dates_ordered task -> updatedAt task = ValidDate u -> u <= now ->
  toggleTaskStatus now task = Ok task' ->
  dates_ordered task'.
Proof. intros. eapply updateTask_keeps_dates_ordered; eauto. Qed.

(** C9. A task is created at time 1000 and then updated at time 2000 with a
    patch that carries its own title: neither the title nor the status
    changes, and [updatedAt] is no longer equal to [createdAt]. *)
Theorem dates_differ_without_a_change :
  let env := {| new_Date := 1000; Date_now := 1000;
                Math_random_36 := str "0.4fzyo82mvyr" |} in
  exists task task',
    createTask env {| creation_title := str "x" |} = Ok task
    /\ updateTask 2000 task
         {| update_title := Some (str "x"); update_status := None |} = Ok task'
    /\ title task' = title task
    /\ status task' = status task
    /\ createdAt task' = ValidDate 1000
    /\ updatedAt task' = ValidDate 2000.
Proof. simpl. eexists. eexists. repeat split. Qed.

(** ** Titles *)

Lemma words_drop_ws s : words (drop_ws s) = words s.
Proof.
  induction s as [|c s IH]; simpl; [reflexivity|].
  destruct (is_ws c) eqn:E; [exact IH|]. simpl. now rewrite E.
Qed.

Lemma words_all_ws w : forallb is_ws w = true -> words w = [].
Proof.
  induction w as [|c w IH]; simpl; [reflexivity|].
  destruct (is_ws c); simpl; [exact IH|discriminate].
Qed.

Lemma words_app_ws s w : forallb is_ws w = true -> words (s ++ w) = words s.
Proof.
  intros Hw. induction s as [|c s IH].
  - now apply words_all_ws.
  - cbn [app words]. destruct (is_ws c); [exact IH|].
    destruct s as [|d s'].
    + destruct w as [|d w']; [reflexivity|].
      cbn [app]. simpl in Hw. apply andb_prop in Hw as [Hd Hw'].
      rewrite Hd. change (d :: w') with ([] ++ d :: w'). rewrite IH. reflexivity.
    + cbn [app] in *. now rewrite IH.
Qed.

Lemma drop_ws_split s :
  exists w, forallb is_ws w = true /\ s = w ++ drop_ws s.
Proof.
  induction s as [|c s (w & Hw & Hs)]; simpl.
  - now exists [].
  - destruct (is_ws c) eqn:E.
    + exists (c :: w). simpl. rewrite E, Hw. split; [reflexivity|congruence].
    + now exists [].
Qed.

Lemma head_ok_drop_ws s : head_ok (drop_ws s) = true.
Proof.
  induction s as [|c s IH]; simpl; [reflexivity|].
  destruct (is_ws c) eqn:E; [exact IH|]. simpl. now rewrite E.
Qed.

Lemma length_drop_ws s : (length (drop_ws s) <= length s)%nat.
Proof.
  induction s as [|c s IH]; simpl; [lia|]. destruct (is_ws c); simpl; lia.
Qed.

Lemma forallb_rev {A} (p : A -> bool) l : forallb p (rev l) = forallb p l.
Proof.
  induction l as [|x l IH]; simpl; [reflexivity|].
  rewrite forallb_app, IH. simpl. destruct (p x), (forallb p l); reflexivity.
Qed.

(** The title is its trimmed part followed by white space, after the white
    space at its start. *)
Lemma trim_split s :
  exists w, forallb is_ws w = true /\ drop_ws s = trim s ++ w.
Proof.
  unfold trim. destruct (drop_ws_split (rev (drop_ws s))) as (w & Hw & Hs).
  exists (rev w). rewrite forallb_rev. split; [exact Hw|].
  rewrite <- (rev_involutive (drop_ws s)) at 1. rewrite Hs at 1.
  now rewrite rev_app_distr.
Qed.

Lemma words_trim s : words (trim s) = words s.
Proof.
  destruct (trim_split s) as (w & Hw & Hs).
  rewrite <- (words_drop_ws s), Hs. symmetry. now apply words_app_ws.
Qed.

Lemma head_ok_trim s : head_ok (trim s) = true.
Proof.
  destruct (trim_split s) as (w & Hw & Hs).
  pose proof (head_ok_drop_ws s) as H. rewrite Hs in H.
  destruct (trim s); [reflexivity|exact H].
Qed.

Lemma ends_ok_trim s : ends_ok (trim s) = true.
Proof.
  unfold ends_ok, trim. rewrite rev_involutive. apply head_ok_drop_ws.
Qed.

Lemma ends_ok_cons c d u : ends_ok (c :: d :: u) = ends_ok (d :: u).
Proof.
  unfold ends_ok. cbn [rev]. destruct (rev u ++ [d]) eqn:E; [|reflexivity].
  now destruct (rev u).
Qed.

Lemma ends_ok_drop_ws u :
  u <> [] -> ends_ok u = true -> drop_ws u <> [] /\ ends_ok (drop_ws u) = true.
Proof.
  induction u as [|c u IH]; [congruence|]. intros _ Hend.
  cbn [drop_ws]. destruct (is_ws c) eqn:E.
  - destruct u as [|d u'].
    + unfold ends_ok in Hend. simpl in Hend. rewrite E in Hend. discriminate.
    + rewrite ends_ok_cons in Hend. apply IH; [discriminate|exact Hend].
  - split; [discriminate|exact Hend].
Qed.

Lemma replace_ws_true_drop s :
  replace_ws_from true s = replace_ws_from false (drop_ws s).
Proof.
  induction s as [|c s IH]; simpl; [reflexivity|].
  destruct (is_ws c) eqn:E; [exact IH|]. simpl. now rewrite E.
Qed.

Lemma words_nonempty c u : is_ws c = false -> words (c :: u) <> [].
Proof.
  intros E. cbn [words]. rewrite E. destruct u as [|d u]; [discriminate|].
  destruct (is_ws d); [discriminate|]. destruct (words (d :: u)); discriminate.
Qed.

Lemma unwords_cons_char c w ws : unwords ((c :: w) :: ws) = c :: unwords (w :: ws).
Proof. destruct ws; reflexivity. Qed.

(** On a title without white space at either end, collapsing the runs of
    white space gives the words joined by single spaces. *)
Lemma replace_ws_runs_tight n : forall u,
  (length u <= n)%nat -> head_ok u = true -> ends_ok u = true ->
  replace_ws_runs u = unwords (words u).
Proof.
  unfold replace_ws_runs.
  induction n as [|n IH]; intros u Hlen Hhead Hend.
  - destruct u; [reflexivity|simpl in Hlen; lia].
  - destruct u as [|c u]; [reflexivity|].
    simpl in Hhead. apply negb_true_iff in Hhead.
    cbn [replace_ws_from words]. rewrite Hhead.
    destruct u as [|d u']; [reflexivity|].
    rewrite ends_ok_cons in Hend. simpl in Hlen.
    destruct (is_ws d) eqn:Ed.
    + destruct (ends_ok_drop_ws (d :: u') ltac:(discriminate) Hend) as [Hne Hend'].
      cbn [replace_ws_from]. rewrite Ed.
      rewrite replace_ws_true_drop, <- (words_drop_ws (d :: u')).
      cbn [drop_ws] in *. rewrite Ed in *.
      pose proof (length_drop_ws u') as Hl.
      rewrite (IH (drop_ws u')) by (try apply head_ok_drop_ws; try assumption; lia).
      pose proof (head_ok_drop_ws u') as Hh.
      destruct (drop_ws u') as [|e v]; [congruence|].
      simpl in Hh. apply negb_true_iff in Hh.
      pose proof (words_nonempty e v Hh).
      destruct (words (e :: v)); [congruence|reflexivity].
    + rewrite (IH (d :: u')) by (simpl; try rewrite Ed; auto; lia).
      pose proof (words_nonempty d u' Ed).
      destruct (words (d :: u')) as [|w ws]; [congruence|].
      now rewrite unwords_cons_char.
Qed.

(** [sanitizeTitle] computes the normalized title of the specification. *)
Lemma sanitizeTitle_normalized s : sanitizeTitle s = normalized_title s.
Proof.
  unfold sanitizeTitle, normalized_title.
  rewrite (replace_ws_runs_tight (length (trim s)))
    by auto using head_ok_trim, ends_ok_trim.
  now rewrite words_trim.
Qed.

(** C4. [createTask] fails with the title error exactly when the length of
    the normalized title is outside 1..255, and otherwise returns a pending
    task with the normalized title; nothing else can make it fail, because
    these are its only two outcomes. The examples of the claim follow. *)
Theorem createTask_normalizes_and_validates (env : Env) (data : TaskCreationData) :
  createTask env data =
    (let t := normalized_title (creation_title data) in
     if (1 <=? js_length t) && (js_length t <=? 255)
     then Ok {| id := generateId env; title := t; status := pending;
                createdAt := ValidDate (new_Date env);
                updatedAt := ValidDate (new_Date env) |}
     else Throw title_error)
  /\ normalized_title (str "  a   b  ") = str "a b"
  /\ createTask env {| creation_title := str "" |} = Throw title_error
  /\ createTask env {| creation_title := repeat 97%N 256 |} = Throw title_error
  /\ (exists task,
        createTask env {| creation_title := repeat 97%N 255 |} = Ok task
        /\ title task = repeat 97%N 255).
Proof.
  split; [|split; [|split; [|split]]].
  - unfold createTask, validateTitle. rewrite sanitizeTitle_normalized. cbn zeta.
    set (t := normalized_title _).
    replace (js_length t >? 0) with (1 <=? js_length t) by
      (destruct (Z.gtb_spec (js_length t) 0), (Z.leb_spec 1 (js_length t)); lia).
    now destruct ((1 <=? js_length t) && (js_length t <=? 255)).
  - reflexivity.
  - reflexivity.
  - vm_compute. reflexivity.
  - eexists. split; vm_compute; reflexivity.
Qed.

(** ** Sorting *)

Section StableSort.
Context {A : Type} (comparefn : A -> A -> number).
(** The comparator follows the order of a key on the elements that are
    [good] (for the tasks: the ones whose creation date is valid). *)
Context (key : A -> Z) (good : A -> Prop).
Hypothesis compare_key : forall x y,
  good x -> good y -> (SortCompare comparefn x y <= 0 <-> key x <= key y).

Let key_le := key_order key.

Lemma sort_insert_perm x l : Permutation (sort_insert comparefn x l) (x :: l).
Proof using Type.
  induction l as [|y l IH]; simpl; [reflexivity|].
  destruct (SortCompare comparefn x y <=? 0); [reflexivity|].
  rewrite IH. apply perm_swap.
Qed.

Lemma Array_sort_perm l : Permutation (Array_sort comparefn l) l.
Proof using Type.
  induction l as [|x l IH]; simpl; [reflexivity|].
  rewrite sort_insert_perm. now constructor.
Qed.

Lemma Array_sort_good l : Forall good l -> Forall good (Array_sort comparefn l).
Proof using Type.
  intros H. eapply Permutation_Forall; [|exact H].
  symmetry. apply Array_sort_perm.
Qed.

Lemma sort_insert_sorted x l :
  good x -> Forall good l ->
  StronglySorted key_le l -> StronglySorted key_le (sort_insert comparefn x l).
Proof using compare_key.
  intros Hx Hl Hs. induction Hs as [|y l Hs IH Hy]; simpl.
  - repeat constructor.
  - inversion Hl as [|? ? Hgy Hgl]; subst.
    destruct (Z.leb_spec (SortCompare comparefn x y) 0) as [Hc|Hc].
    + apply compare_key in Hc; [|assumption..].
      constructor; [now constructor|].
      constructor; [exact Hc|].
      eapply Forall_impl; [exact Hy|]. unfold key_le, key_order in *. intros; lia.
    + assert (Hyx : key y <= key x).
      { destruct (Z_le_gt_dec (key y) (key x)); [assumption|].
        assert (key x <= key y) as Hxy by lia.
        apply compare_key in Hxy; [lia|assumption..]. }
      constructor; [now apply IH|].
      eapply Permutation_Forall; [symmetry; apply sort_insert_perm|].
      now constructor.
Qed.

Lemma Array_sort_sorted l :
  Forall good l -> StronglySorted key_le (Array_sort comparefn l).
Proof using compare_key.
  induction 1 as [|x l Hx Hl IH]; simpl; [constructor|].
  apply sort_insert_sorted; auto using Array_sort_good.
Qed.

(** Inserting an element does not carry it past an element with its key. *)
Lemma sort_insert_filter k x l :
  good x -> Forall good l ->
  List.filter (fun a => key a =? k) (sort_insert comparefn x l)
  = List.filter (fun a => key a =? k) (x :: l).
Proof using compare_key.
  intros Hx Hl. induction Hl as [|y l Hy Hl IH]; [reflexivity|].
  cbn [sort_insert].
  destruct (Z.leb_spec (SortCompare comparefn x y) 0) as [Hc|Hc]; [reflexivity|].
  assert (Hne : key x <> key y).
  { intros Heq. assert (key x <= key y) as Hxy by lia.
    apply compare_key in Hxy; [lia|assumption..]. }
  cbn [List.filter] in *. rewrite IH.
  destruct (Z.eqb_spec (key x) k), (Z.eqb_spec (key y) k); congruence.
Qed.

Lemma Array_sort_stable k l :
  Forall good l ->
  List.filter (fun a => key a =? k) (Array_sort comparefn l)
  = List.filter (fun a => key a =? k) l.
Proof using compare_key.
  induction 1 as [|x l Hx Hl IH]; [reflexivity|].
  cbn [Array_sort]. rewrite sort_insert_filter by auto using Array_sort_good.
  cbn [List.filter]. now rewrite IH.
Qed.
Lemma filter_below_head k y l :
  k < key y -> Forall (key_le y) l ->
  List.filter (fun a => key a =? k) (y :: l) = [].
Proof using Type.
  intros Hk Hy. cbn [List.filter].
  destruct (Z.eqb_spec (key y) k); [lia|].
  induction Hy as [|z l Hz Hl IH]; [reflexivity|].
  cbn [List.filter]. unfold key_le, key_order in Hz.
  destruct (Z.eqb_spec (key z) k); [lia|exact IH].
Qed.

(** A sorted list is determined by the sequences of its elements of each
    key: two sorted lists with the same such sequences are equal. *)
Lemma sorted_stable_unique l1 : forall l2,
  StronglySorted key_le l1 -> StronglySorted key_le l2 ->
  (forall k, List.filter (fun a => key a =? k) l1
             = List.filter (fun a => key a =? k) l2) ->
  l1 = l2.
Proof using Type.
  induction l1 as [|x l1 IH]; intros l2 Hs1 Hs2 Hf.
  - destruct l2 as [|y l2]; [reflexivity|].
    specialize (Hf (key y)). cbn [List.filter] in Hf.
    rewrite Z.eqb_refl in Hf. discriminate.
  - destruct l2 as [|y l2].
    { specialize (Hf (key x)). cbn [List.filter] in Hf.
      rewrite Z.eqb_refl in Hf. discriminate. }
    inversion Hs1 as [|? ? Hs1' Hx]; subst.
    inversion Hs2 as [|? ? Hs2' Hy]; subst.
    assert (Hxy : key x = key y).
    { destruct (Z.lt_trichotomy (key x) (key y)) as [Hlt|[Heq|Hgt]];
        [exfalso|exact Heq|exfalso].
      - pose proof (Hf (key x)) as Hk.
        rewrite (filter_below_head (key x) y l2 Hlt Hy) in Hk.
        cbn [List.filter] in Hk. rewrite Z.eqb_refl in Hk. discriminate.
      - pose proof (Hf (key y)) as Hk.
        rewrite (filter_below_head (key y) x l1 ltac:(lia) Hx) in Hk.
        cbn [List.filter] in Hk. rewrite Z.eqb_refl in Hk. discriminate. }
    assert (Hhead : x = y /\ forall k,
               List.filter (fun a => key a =? k) l1
               = List.filter (fun a => key a =? k) l2).
    { split.
      - specialize (Hf (key x)). cbn [List.filter] in Hf.
        rewrite <- Hxy, Z.eqb_refl in Hf. congruence.
      - intros k. specialize (Hf k). cbn [List.filter] in Hf.
        rewrite <- Hxy in Hf. destruct (key x =? k); congruence. }
    destruct Hhead as [-> Htail]. f_equal. now apply IH.
Qed.

(** So the result of the model is the only list that is sorted and keeps
    the input order among the elements of each key: every stable sort
    returns it. *)
Lemma Array_sort_canonical l l' :
  Forall good l -> StronglySorted key_le l' ->
  (forall k, List.filter (fun a => key a =? k) l'
             = List.filter (fun a => key a =? k) l) ->
  l' = Array_sort comparefn l.
Proof using compare_key.
  intros Hl Hs Hf. apply sorted_stable_unique; [exact Hs| |].
  - now apply Array_sort_sorted.
  - intros k. rewrite Hf. symmetry. now apply Array_sort_stable.
Qed.
End StableSort.

Lemma StronglySorted_weaken {A} (R R' : A -> A -> Prop) (l : list A) :
  (forall a b, R a b -> R' a b) -> StronglySorted R l -> StronglySorted R' l.
Proof.
  intros HR. induction 1 as [|x l Hs IH Hx]; constructor; [exact IH|].
  eapply Forall_impl; [exact Hx|]. intros b. apply HR.
Qed.

Lemma creation_comparator_key descending (x y : TaskEntity) :
  valid_creation x -> valid_creation y ->
  SortCompare (creation_comparator descending) x y <= 0
  <-> (if descending then - created x else created x)
      <= (if descending then - created y else created y).
Proof.
  unfold valid_creation, SortCompare, creation_comparator, created.
  destruct (createdAt x), (createdAt y); simpl; try discriminate.
  intros _ _. destruct descending; simpl; lia.
Qed.

(** C8. On tasks with valid creation dates, [sortTasksByCreationDate]
    returns a rearrangement of the list that is in ascending order of
    [createdAt] (descending when asked), and, in either direction, the tasks
    that share a creation time come out in the order they had in the input. *)
Theorem sortTasksByCreationDate_stable
    (tasks : list TaskEntity) (descending : bool) :
  Forall valid_creation tasks ->
  let sorted := sortTasksByCreationDate tasks descending in
  Permutation sorted tasks
  /\ StronglySorted (creation_order descending) sorted
  /\ (sortTasksByCreationDate tasks false
      = Array_sort (creation_comparator false) tasks)
  /\ forall k,
       List.filter (fun t => created t =? k) sorted
       = List.filter (fun t => created t =? k) tasks.
Proof.
  intros Hvalid. cbn zeta. unfold sortTasksByCreationDate.
  pose proof (creation_comparator_key descending) as Hkey.
  split; [apply Array_sort_perm|split; [|split; [reflexivity|]]].
  - pose proof (Array_sort_sorted _ _ _ Hkey tasks Hvalid) as Hs.
    eapply StronglySorted_weaken; [|exact Hs].
    unfold creation_order, key_order. destruct descending; simpl; intros; lia.
  - intros k.
    pose proof (Array_sort_stable _ _ _ Hkey
                  (if descending then - k else k) tasks Hvalid) as Hs.
    erewrite (filter_ext _ (fun t => created t =? k)) in Hs.
    + rewrite Hs. apply filter_ext. intros t.
      destruct descending; [|reflexivity].
      destruct (Z.eqb_spec (- created t) (- k)), (Z.eqb_spec (created t) k); lia.
    + intros t. destruct descending; [|reflexivity].
      destruct (Z.eqb_spec (- created t) (- k)), (Z.eqb_spec (created t) k); lia.
Qed.

Lemma sortTasksByCreationDate_stable_witness :
  Forall valid_creation tasks_with_a_tie
  /\ (let sorted := sortTasksByCreationDate tasks_with_a_tie true in
      Permutation sorted tasks_with_a_tie
      /\ StronglySorted (creation_order true) sorted
      /\ (sortTasksByCreationDate tasks_with_a_tie false
          = Array_sort (creation_comparator false) tasks_with_a_tie)
      /\ forall k,
           List.filter (fun t => created t =? k) sorted
           = List.filter (fun t => created t =? k) tasks_with_a_tie).
Proof.
  assert (H : Forall valid_creation tasks_with_a_tie)
    by (repeat constructor).
  split; [exact H|].
  exact (sortTasksByCreationDate_stable tasks_with_a_tie true H).
Defined.

(** The two tasks of the same millisecond keep their order in both
    directions. *)
Example sort_tie_example :
  List.map id (sortTasksByCreationDate tasks_with_a_tie false)
  = [str "task_2"; str "task_3"; str "task_1"]
  /\ List.map id (sortTasksByCreationDate tasks_with_a_tie true)
     = [str "task_1"; str "task_2"; str "task_3"].
Proof. split; reflexivity. Qed.

(** ** The repository *)

(** Detached from the repository, [deserializeTask] returns [null] for every
    element. *)
Lemma deserialize_detached `{Platform} (parsed : list JSON) :
  filter_Boolean (List.map (deserializeTask this_undefined) parsed) = [].
Proof. induction parsed as [|v l IH]; [reflexivity|exact IH]. Qed.

(** Whatever the storage holds, [findAll] returns the empty list. *)
Lemma findAll_returns_nothing `{Platform} (st : LocalStorage) :
  fst (findAll st) = [].
Proof.
  unfold findAll, getItem.
  destruct (items st !! STORAGE_KEY) as [[|c data]|]; try reflexivity.
  destruct (JSON_parse (c :: data)) as [[]|]; try reflexivity.
  cbn [fst]. apply deserialize_detached.
Qed.

(** Called on the repository, [deserializeTask] keeps a record exactly when
    [isValidTaskData] accepts it. *)
Lemma deserialize_bound `{Platform} (data : JSON) :
  is_Some (deserializeTask this_repository data) <-> isValidTaskData data = true.
Proof.
  unfold deserializeTask, isValidTaskData.
  destruct data; simpl; try (split; [intros [? ?]|]; discriminate).
  destruct (as_string (lookup_property (str "id") properties)); simpl;
    [|split; [intros [? ?]|]; discriminate].
  destruct (as_string (lookup_property (str "title") properties)); simpl;
    [|split; [intros [? ?]|]; discriminate].
  destruct (as_status (lookup_property (str "status") properties)); simpl;
    [|split; [intros [? ?]|]; discriminate].
  destruct (as_string (lookup_property (str "createdAt") properties)); simpl;
    [|split; [intros [? ?]|]; discriminate].
  destruct (as_string (lookup_property (str "updatedAt") properties)); simpl;
    [|split; [intros [? ?]|]; discriminate].
  split; [reflexivity|eauto].
Qed.

(** The examples: the record of a task is accepted and read back, a record
    without [status] is refused, and a record whose dates are arbitrary
    strings is accepted, with Invalid Dates. *)
Lemma deserialize_examples :
  serializeTask stored_task = Ok stored_record
  /\ deserializeTask (H := reference_platform) this_repository stored_record
     = Some stored_task
  /\ isValidTaskData record_without_status = false
  /\ isValidTaskData record_with_bad_dates = true
  /\ deserializeTask (H := reference_platform) this_repository record_with_bad_dates
     = Some {| id := str "task_3"; title := str "e f"; status := completed;
               createdAt := InvalidDate; updatedAt := InvalidDate |}.
Proof. split_conj; vm_compute; reflexivity. Qed.

(** C2. One valid task is saved into an empty storage: the save succeeds
    and stores the record of the task, which the reference parser reads
    back; and [findAll] on the storage that results returns the empty list,
    not the task. *)
Theorem findAll_after_save_loses_the_task `{Platform} :
  exists st1,
    save [stored_task] (empty_storage 10000000) = (Ok tt, st1)
    /\ items st1 !! STORAGE_KEY = Some (JSON_stringify (JArray [stored_record]))
    /\ parse_json (JSON_stringify (JArray [stored_record]))
       = Ok (JArray [stored_record])
    /\ fst (findAll st1) = []
    /\ fst (findAll st1) <> [stored_task].
Proof.
  eexists. split; [vm_compute; reflexivity|].
  split; [vm_compute; reflexivity|].
  split; [vm_compute; reflexivity|].
  rewrite findAll_returns_nothing. split; [reflexivity|discriminate].
Qed.

(** C3. The storage holds one valid record and one record without
    [status]: the text parses to the two records, [isValidTaskData] accepts
    the first and refuses the second, and [findAll] returns the empty list,
    without the valid task. *)
Theorem findAll_drops_the_valid_record `{Platform} :
  items storage_with_two_records !! STORAGE_KEY
  = Some (JSON_stringify (JArray [stored_record; record_without_status]))
  /\ parse_json (JSON_stringify (JArray [stored_record; record_without_status]))
     = Ok (JArray [stored_record; record_without_status])
  /\ isValidTaskData stored_record = true
  /\ isValidTaskData record_without_status = false
  /\ fst (findAll storage_with_two_records) = []
  /\ fst (findAll storage_with_two_records) <> [stored_task].
Proof.
  split; [vm_compute; reflexivity|].
  split; [vm_compute; reflexivity|].
  split; [vm_compute; reflexivity|].
  split; [vm_compute; reflexivity|].
  rewrite findAll_returns_nothing. split; [reflexivity|discriminate].
Qed.

(** ** The size limit *)

Lemma quote_unit_nonempty c : (1 <= length (quote_unit c))%nat.
Proof.
  unfold quote_unit, unicode_escape.
  repeat match goal with |- context [if ?b then _ else _] => destruct b end;
    simpl; lia.
Qed.

Lemma quote_units_length_aux n : forall s,
  (length s <= n)%nat -> (length s <= length (quote_units s))%nat.
Proof.
  induction n as [|n IH]; intros s Hn.
  - destruct s; simpl in *; lia.
  - destruct s as [|c [|d s]]; [simpl; lia| |].
    + pose proof (quote_unit_nonempty c). simpl. lia.
    + cbn [quote_units]. simpl in Hn.
      destruct (is_high_surrogate c && is_low_surrogate d).
      * specialize (IH s ltac:(lia)). simpl. lia.
      * specialize (IH (d :: s) ltac:(simpl; lia)).
        pose proof (quote_unit_nonempty c).
        rewrite length_app. simpl in *. lia.
Qed.

(** Quoting a string does not make it shorter. *)
Lemma quote_units_length s : (length s <= length (quote_units s))%nat.
Proof. now apply (quote_units_length_aux (length s)). Qed.

Lemma Ok_inj {A} (a b : A) : Ok a = Ok b -> a = b.
Proof. congruence. Qed.

(** The text of a single task is longer than the title of the task. *)
Lemma serialize_single_size task serialized :
  serialize_tasks [task] = Ok serialized ->
  js_length (title task) < js_length serialized.
Proof.
  unfold serialize_tasks, serializeTask; cbn [map_result].
  destruct (toISOString (createdAt task)); [|discriminate].
  destruct (toISOString (updatedAt task)); [|discriminate].
  intros Hs. apply Ok_inj in Hs. subst serialized.
  pose proof (quote_units_length (title task)) as Hq.
  unfold js_length. cbv [JSON_stringify QuoteJSONString].
  rewrite !length_app. cbn [length]. lia.
Qed.

(** A save that fails leaves the stored items as they were. *)
Lemma save_failure_keeps_items tasks st e st' :
  save tasks st = (Throw e, st') -> items st' = items st.
Proof.
  unfold save, save_try.
  destruct (serialize_tasks tasks) as [serialized|e0].
  - destruct (js_length serialized >? MAX_STORAGE_SIZE).
    + destruct (jsstring_eqb _ _); intros H; inversion H; reflexivity.
    + unfold setItem.
      destruct (used_space _ >? quota st); cbn.
      * destruct (jsstring_eqb _ _); intros H; inversion H; reflexivity.
      * discriminate.
  - destruct (jsstring_eqb _ _); intros H; inversion H; reflexivity.
Qed.

(** C5. When the text of the collection is longer than
    [MAX_STORAGE_SIZE], [save] fails with the error that reports it, and the
    storage it returns is the storage it was given: the items are the same
    and no call to [localStorage] was made. *)
Theorem save_over_limit_fails_before_writing
    (tasks : list TaskEntity) (serialized : jsstring) (st : LocalStorage) :
  serialize_tasks tasks = Ok serialized ->
  js_length serialized > MAX_STORAGE_SIZE ->
  save tasks st = (Throw limit_error, st).
Proof.
  intros Hs Hlen. unfold save, save_try. rewrite Hs.
  destruct (Z.gtb_spec (js_length serialized) MAX_STORAGE_SIZE); [|lia].
  reflexivity.
Qed.

Lemma oversized_task_size :
  serialize_tasks [oversized_task] = Ok (JSON_stringify (JArray [oversized_record]))
  /\ js_length (JSON_stringify (JArray [oversized_record])) > MAX_STORAGE_SIZE.
Proof.
  assert (Hs : serialize_tasks [oversized_task]
               = Ok (JSON_stringify (JArray [oversized_record]))) by reflexivity.
  split; [exact Hs|].
  apply serialize_single_size in Hs.
  set (n := js_length (JSON_stringify _)) in *.
  change (title oversized_task)
    with (repeat 97%N (Z.to_nat (MAX_STORAGE_SIZE + 1))) in Hs.
  unfold js_length in Hs. rewrite repeat_length in Hs.
  rewrite Z2Nat.id in Hs by (unfold MAX_STORAGE_SIZE; lia).
  lia.
Qed.

Lemma save_over_limit_witness :
  serialize_tasks [oversized_task] = Ok (JSON_stringify (JArray [oversized_record]))
  /\ js_length (JSON_stringify (JArray [oversized_record])) > MAX_STORAGE_SIZE
  /\ save [oversized_task] (empty_storage 10000000)
     = (Throw limit_error, empty_storage 10000000).
Proof.
  destruct oversized_task_size as [Hs Hlen].
  split; [exact Hs|]. split; [exact Hlen|].
  exact (save_over_limit_fails_before_writing
           [oversized_task] _ (empty_storage 10000000) Hs Hlen).
Defined.

(** * Further properties *)

(** ** Toggling and updating *)

(** X1. [toggleTaskStatus] never throws: it returns the task with the other
    status and the current time as [updatedAt]; toggling the result again
    gives back the first status, and the identifier, the title and the
    creation date go through both calls unchanged. *)
Theorem toggleTaskStatus_twice (now1 now2 : Z) (task : TaskEntity) :
  toggleTaskStatus now1 task
  = Ok {| id := id task; title := title task;
          status := other_status (status task);
          createdAt := createdAt task; updatedAt := ValidDate now1 |}
  /\ exists t1 t2,
       toggleTaskStatus now1 task = Ok t1
       /\ toggleTaskStatus now2 t1 = Ok t2
       /\ status t1 <> status task
       /\ t2 = {| id := id task; title := title task; status := status task;
                  createdAt := createdAt task; updatedAt := ValidDate now2 |}.
Proof.
  assert (H : forall now t, toggleTaskStatus now t
            = Ok {| id := id t; title := title t;
                    status := other_status (status t);
                    createdAt := createdAt t; updatedAt := ValidDate now |}).
  { intros now t. unfold toggleTaskStatus. rewrite updateTask_cases.
    destruct t as [i ti [] c u]; reflexivity. }
  split; [apply H|].
  eexists. eexists. split; [apply H|]. split; [apply H|].
  destruct task as [i ti [] c u]; simpl; split; congruence.
Qed.

(** X2. [updateTask] throws exactly when the patch carries a title whose
    normalized length is outside 1..255, whatever the patch says about the
    status, and what it throws is the title error. *)
Theorem updateTask_throws_iff (now : Z) (task : TaskEntity)
    (updates : TaskUpdateData) (e : JsError) :
  updateTask now task updates = Throw e
  <-> e = title_error
      /\ exists v, update_title updates = Some v
                   /\ (js_length (normalized_title v) = 0
                       \/ 255 < js_length (normalized_title v)).
Proof.
  rewrite updateTask_cases.
  destruct (update_title updates) as [v|].
  - rewrite sanitizeTitle_normalized. unfold validateTitle.
    set (n := js_length (normalized_title v)).
    assert (Hn : 0 <= n) by (subst n; unfold js_length; lia).
    destruct (Z.gtb_spec n 0) as [Hpos|Hzero], (Z.leb_spec n 255) as [Hle|Hgt];
      cbn [andb].
    + split; [discriminate|].
      intros [_ (v' & Hv & Hlen)]. inversion Hv; subst v'. fold n in Hlen. lia.
    + split.
      * intros H; inversion H. split; [reflexivity|].
        exists v. split; [reflexivity|]. fold n. lia.
      * intros [-> _]. reflexivity.
    + split.
      * intros H; inversion H. split; [reflexivity|].
        exists v. split; [reflexivity|]. fold n. lia.
      * intros [-> _]. reflexivity.
    + lia.
  - split.
    + destruct (update_status updates) as [s|];
        [destruct (status_eqb s (status task))|]; discriminate.
    + intros [_ (v & Hv & _)]. discriminate.
Qed.

(** X3. A task returned by [updateTask] has the identifier and the creation
    date of the task it was given; its status is the one of the patch when
    the patch has one, its title is unchanged when the patch has none, and
    its [updatedAt] is either the old one or the current time. *)
Theorem updateTask_result_fields (now : Z) (task task' : TaskEntity)
    (updates : TaskUpdateData) :
  updateTask now task updates = Ok task' ->
  id task' = id task
  /\ createdAt task' = createdAt task
  /\ status task' = match update_status updates with
                    | Some s => s
                    | None => status task
                    end
  /\ (update_title updates = None -> title task' = title task)
  /\ (updatedAt task' = updatedAt task \/ updatedAt task' = ValidDate now).
Proof.
  rewrite updateTask_cases. intros H.
  destruct (update_title updates) as [v|].
  - destruct (validateTitle (sanitizeTitle v)); inversion H; subst; cbn.
    repeat split; auto. discriminate.
  - destruct (update_status updates) as [s|].
    + destruct (status_eqb s (status task)) eqn:E; inversion H; subst; cbn;
        repeat split; auto.
      symmetry. now apply status_eqb_eq.
    + inversion H; subst. repeat split; auto.
Qed.

Lemma updateTask_result_fields_witness :
  updateTask 2000 stored_task
    {| update_title := Some (str " new  title "); update_status := Some completed |}
  = Ok (mkTask (str "task_1") (str "new title") completed
          (ValidDate 1700000000123) (ValidDate 2000))
  /\ str "task_1" = id stored_task
  /\ ValidDate 1700000000123 = createdAt stored_task
  /\ completed = completed
  /\ (Some (str " new  title ") = None -> str "new title" = title stored_task)
  /\ (ValidDate 2000 = updatedAt stored_task \/ ValidDate 2000 = ValidDate 2000).
Proof.
  assert (H : updateTask 2000 stored_task
     {| update_title := Some (str " new  title "); update_status := Some completed |}
   = Ok (mkTask (str "task_1") (str "new title") completed
           (ValidDate 1700000000123) (ValidDate 2000)))
    by reflexivity.
  split; [exact H|].
  exact (updateTask_result_fields 2000 stored_task _ _ H).
Defined.

(** ** Normal form of titles *)

Lemma words_word_app w r :
  proper_word w = true -> words (w ++ SPACE :: r) = w :: words r.
Proof.
  unfold proper_word. induction w as [|c w IH]; [discriminate|].
  cbn [is_nil negb andb forallb]. intros H. apply andb_prop in H as [Hc Hw].
  apply negb_true_iff in Hc. cbn [app words]. rewrite Hc.
  destruct w as [|d w'].
  - cbn [app]. change (is_ws SPACE) with true. cbn [words]. reflexivity.
  - cbn [app] in *. cbn [forallb] in Hw.
    pose proof Hw as Hw'. apply andb_prop in Hw' as [Hd _].
    apply negb_true_iff in Hd. rewrite Hd.
    rewrite IH by (cbn [is_nil negb andb forallb]; exact Hw). reflexivity.
Qed.

Lemma words_word w : proper_word w = true -> words w = [w].
Proof.
  unfold proper_word. induction w as [|c w IH]; [discriminate|].
  cbn [is_nil negb andb forallb]. intros H. apply andb_prop in H as [Hc Hw].
  apply negb_true_iff in Hc. cbn [words]. rewrite Hc.
  destruct w as [|d w']; [reflexivity|].
  cbn [forallb] in Hw. pose proof Hw as Hw'. apply andb_prop in Hw' as [Hd _].
  apply negb_true_iff in Hd. rewrite Hd.
  rewrite IH by (cbn [is_nil negb andb forallb]; exact Hw). reflexivity.
Qed.

Lemma words_proper s : forallb proper_word (words s) = true.
Proof.
  induction s as [|c s IH]; [reflexivity|].
  cbn [words]. destruct (is_ws c) eqn:Hc; [exact IH|].
  destruct s as [|d s']; [cbn; now rewrite Hc|].
  destruct (is_ws d) eqn:Hd.
  - cbn [forallb]. rewrite IH. cbn. now rewrite Hc.
  - destruct (words (d :: s')) as [|w ws]; [cbn; now rewrite Hc|].
    cbn [forallb] in *. apply andb_prop in IH as [Hw Hws]. rewrite Hws.
    unfold proper_word in *. cbn [is_nil negb andb forallb]. rewrite Hc.
    apply andb_prop in Hw as [_ Hw]. now rewrite Hw.
Qed.

Lemma words_unwords ws :
  forallb proper_word ws = true -> words (unwords ws) = ws.
Proof.
  induction ws as [|w ws IH]; [reflexivity|].
  cbn [forallb]. intros H. apply andb_prop in H as [Hw Hws].
  destruct ws as [|w' ws'].
  - cbn [unwords]. now apply words_word.
  - change (unwords (w :: w' :: ws')) with (w ++ SPACE :: unwords (w' :: ws')).
    rewrite words_word_app by exact Hw. now rewrite IH.
Qed.

Lemma normalized_title_idempotent s :
  normalized_title (normalized_title s) = normalized_title s.
Proof.
  unfold normalized_title. now rewrite words_unwords by apply words_proper.
Qed.

Lemma length_replace_ws b u :
  (length (replace_ws_from b u) <= length u)%nat.
Proof.
  revert b. induction u as [|c u IH]; intros b; [reflexivity|].
  pose proof (IH true). pose proof (IH false).
  cbn [replace_ws_from]. destruct (is_ws c), b; cbn [length]; lia.
Qed.

Lemma length_trim s : (length (trim s) <= length s)%nat.
Proof.
  unfold trim. rewrite length_rev.
  pose proof (length_drop_ws (rev (drop_ws s))) as H1.
  pose proof (length_drop_ws s) as H2. rewrite length_rev in H1. lia.
Qed.

Lemma words_nil_iff s : words s = [] <-> forallb is_ws s = true.
Proof.
  split; [|apply words_all_ws].
  induction s as [|c s IH]; [reflexivity|].
  cbn [forallb]. destruct (is_ws c) eqn:Hc.
  - cbn [words]. rewrite Hc. exact IH.
  - intros H. exfalso. exact (words_nonempty c s Hc H).
Qed.

Lemma unwords_nil_iff ws :
  forallb proper_word ws = true -> (unwords ws = [] <-> ws = []).
Proof.
  intros H. split; [|intros ->; reflexivity].
  destruct ws as [|w ws]; [reflexivity|].
  cbn [forallb] in H. apply andb_prop in H as [Hw _].
  unfold proper_word in Hw. destruct w as [|c w]; [discriminate|].
  destruct ws; discriminate.
Qed.

Lemma sanitizeTitle_length s : js_length (sanitizeTitle s) <= js_length s.
Proof.
  unfold sanitizeTitle, replace_ws_runs, js_length.
  pose proof (length_replace_ws false (trim s)).
  pose proof (length_trim s). lia.
Qed.

Lemma sanitizeTitle_nil_iff s : sanitizeTitle s = [] <-> forallb is_ws s = true.
Proof.
  rewrite sanitizeTitle_normalized. unfold normalized_title.
  rewrite unwords_nil_iff by apply words_proper. apply words_nil_iff.
Qed.

Lemma createTask_cases (env : Env) (data : TaskCreationData) :
  createTask env data =
    (let t := normalized_title (creation_title data) in
     if (1 <=? js_length t) && (js_length t <=? 255)
     then Ok {| id := generateId env; title := t; status := pending;
                createdAt := ValidDate (new_Date env);
                updatedAt := ValidDate (new_Date env) |}
     else Throw title_error).
Proof.
  unfold createTask, validateTitle. rewrite sanitizeTitle_normalized. cbn zeta.
  set (t := normalized_title _).
  replace (js_length t >? 0) with (1 <=? js_length t) by
    (destruct (Z.gtb_spec (js_length t) 0), (Z.leb_spec 1 (js_length t)); lia).
  now destruct ((1 <=? js_length t) && (js_length t <=? 255)).
Qed.

(** X4. Sanitizing a title a second time changes nothing, a sanitized title is
    never longer than the title, and it is empty exactly when the title
    consists of white space only. *)
Theorem sanitizeTitle_idempotent (s : jsstring) :
  sanitizeTitle (sanitizeTitle s) = sanitizeTitle s
  /\ js_length (sanitizeTitle s) <= js_length s
  /\ (sanitizeTitle s = [] <-> forallb is_ws s = true).
Proof.
  split; [|split].
  - rewrite !sanitizeTitle_normalized. apply normalized_title_idempotent.
  - apply sanitizeTitle_length.
  - apply sanitizeTitle_nil_iff.
Qed.

(** X5. [createTask] succeeds exactly when the title has a code unit that is
    not white space and its normalized form has at most 255 code units; so
    every title of at most 255 code units that is not blank is accepted. *)
Theorem createTask_accepts_iff (env : Env) (data : TaskCreationData) :
  ((exists task, createTask env data = Ok task)
   <-> forallb is_ws (creation_title data) = false
       /\ js_length (normalized_title (creation_title data)) <= 255)
  /\ (forallb is_ws (creation_title data) = false ->
      js_length (creation_title data) <= 255 ->
      exists task, createTask env data = Ok task).
Proof.
  set (t := creation_title data).
  assert (Hblank : js_length (normalized_title t) = 0 <-> forallb is_ws t = true).
  { rewrite <- sanitizeTitle_nil_iff, <- sanitizeTitle_normalized.
    unfold js_length. destruct (sanitizeTitle t); cbn [length]; split;
      try discriminate; try reflexivity; lia. }
  assert (Hlen : 0 <= js_length (normalized_title t)) by (unfold js_length; lia).
  assert (Hiff : (exists task, createTask env data = Ok task)
     <-> forallb is_ws t = false /\ js_length (normalized_title t) <= 255).
  { rewrite createTask_cases. cbn zeta. fold t.
    destruct (Z.leb_spec 1 (js_length (normalized_title t))) as [H1|H1],
             (Z.leb_spec (js_length (normalized_title t)) 255) as [H2|H2];
      cbn [andb].
    - split; [intros _|intros _; eauto].
      split; [|lia]. destruct (forallb is_ws t); [|reflexivity].
      destruct Hblank as [_ Hb]. specialize (Hb eq_refl). lia.
    - split; [intros [task Ht]; discriminate|intros [_ Hle]; lia].
    - split; [intros [task Ht]; discriminate|intros [Hb _]].
      assert (forallb is_ws t = true) by (apply Hblank; lia). congruence.
    - lia. }
  split; [exact Hiff|].
  intros Hb Hle. apply Hiff. split; [exact Hb|].
  rewrite <- sanitizeTitle_normalized.
  pose proof (sanitizeTitle_length t). lia.
Qed.

(** X6. Every title the service stores is valid and in normal form: the title
    of a created task has 1 to 255 code units and is a fixed point of
    [sanitizeTitle], and [updateTask] keeps this true. *)
Theorem service_titles_are_normalized :
  (forall env data task,
     createTask env data = Ok task -> title_ok (title task))
  /\ (forall now task updates task',
        updateTask now task updates = Ok task' ->
        title_ok (title task) -> title_ok (title task')).
Proof.
  assert (Hok : forall v, validateTitle (sanitizeTitle v) = true ->
                          title_ok (sanitizeTitle v)).
  { intros v Hv. split; [exact Hv|].
    rewrite !sanitizeTitle_normalized. apply normalized_title_idempotent. }
  split.
  - intros env data task. unfold createTask.
    destruct (validateTitle _) eqn:Hv; cbn [negb]; [|discriminate].
    intros H. inversion H; subst. cbn [title]. now apply Hok.
  - intros now task updates task'. rewrite updateTask_cases.
    destruct (update_title updates) as [v|].
    + destruct (validateTitle (sanitizeTitle v)) eqn:Hv; [|discriminate].
      intros H _. inversion H; subst. cbn [title]. now apply Hok.
    + destruct (update_status updates) as [s|];
        [destruct (status_eqb s (status task))|];
        intros H Ht; inversion H; subst; exact Ht.
Qed.

Lemma createTask_accepts_iff_witness :
  forallb is_ws (str "  a   b  ") = false
  /\ js_length (str "  a   b  ") <= 255
  /\ exists task,
       createTask sample_env {| creation_title := str "  a   b  " |} = Ok task.
Proof.
  assert (H1 : forallb is_ws (str "  a   b  ") = false) by reflexivity.
  assert (H2 : js_length (str "  a   b  ") <= 255) by (vm_compute; discriminate).
  split; [exact H1|]. split; [exact H2|].
  exact (proj2 (createTask_accepts_iff sample_env
                  {| creation_title := str "  a   b  " |}) H1 H2).
Defined.

Lemma service_titles_are_normalized_witness :
  createTask sample_env {| creation_title := str "  a   b  " |} = Ok created_task
  /\ title_ok (title created_task)
  /\ updateTask 4000 created_task
       {| update_title := Some (str " c  d "); update_status := None |}
     = Ok {| id := id created_task; title := str "c d"; status := pending;
             createdAt := ValidDate 3000; updatedAt := ValidDate 4000 |}
  /\ title_ok (str "c d").
Proof.
  assert (H1 : createTask sample_env {| creation_title := str "  a   b  " |}
               = Ok created_task) by reflexivity.
  assert (H2 : updateTask 4000 created_task
                 {| update_title := Some (str " c  d "); update_status := None |}
               = Ok {| id := id created_task; title := str "c d"; status := pending;
                       createdAt := ValidDate 3000; updatedAt := ValidDate 4000 |})
    by reflexivity.
  pose proof (proj1 service_titles_are_normalized _ _ _ H1) as H3.
  split; [exact H1|]. split; [exact H3|]. split; [exact H2|].
  exact (proj2 service_titles_are_normalized _ _ _ _ H2 H3).
Defined.

(** ** Identifiers *)

Lemma str_inj a b : str a = str b -> a = b.
Proof.
  unfold str. intros H.
  rewrite <- (string_of_list_ascii_of_string a),
          <- (string_of_list_ascii_of_string b).
  f_equal. revert H. generalize (list_ascii_of_string a) (list_ascii_of_string b).
  induction l as [|x l IH]; intros [|y l']; cbn [List.map]; try discriminate;
    [reflexivity|].
  intros H. injection H as Hxy Hl. f_equal; [|now apply IH].
  rewrite <- (ascii_N_embedding x), <- (ascii_N_embedding y). now rewrite Hxy.
Qed.

Lemma Z_to_jsstring_inj a b : Z_to_jsstring a = Z_to_jsstring b -> a = b.
Proof.
  unfold Z_to_jsstring. intros H. apply str_inj in H.
  apply DecimalZ.to_int_inj.
  assert (Hn : forall z, Z.to_int z <> Decimal.Pos Decimal.Nil
                         /\ Z.to_int z <> Decimal.Neg Decimal.Nil).
  { intros [|p|p]; cbn; split; try discriminate; intros E; injection E;
      apply DecimalPos.Unsigned.to_uint_nonnil. }
  pose proof (NilZero.isi (Z.to_int a) (proj1 (Hn a)) (proj2 (Hn a))) as Ha.
  pose proof (NilZero.isi (Z.to_int b) (proj1 (Hn b)) (proj2 (Hn b))) as Hb.
  rewrite H in Ha. congruence.
Qed.

Lemma digits_no_underscore d :
  Forall (fun c => c <> 95%N) (str (NilEmpty.string_of_uint d)).
Proof.
  induction d; cbn; constructor; (discriminate || assumption).
Qed.

Lemma Z_to_jsstring_no_underscore z :
  Forall (fun c => c <> 95%N) (Z_to_jsstring z).
Proof.
  unfold Z_to_jsstring.
  assert (Hu : forall d, Forall (fun c => c <> 95%N) (str (NilZero.string_of_uint d))).
  { intros d. destruct d; try apply digits_no_underscore.
    cbn. constructor; [discriminate|constructor]. }
  destruct (Z.to_int z) as [d|d]; cbn [NilZero.string_of_int]; [apply Hu|].
  change (str (String "-" (NilZero.string_of_uint d)))
    with (45%N :: str (NilZero.string_of_uint d)).
  constructor; [discriminate|apply Hu].
Qed.

Lemma split_at_separator (u : N) (l1 : jsstring) : forall l2 x y,
  Forall (fun c => c <> u) l1 -> Forall (fun c => c <> u) l2 ->
  l1 ++ u :: x = l2 ++ u :: y -> l1 = l2 /\ x = y.
Proof.
  induction l1 as [|a l1 IH]; intros [|b l2] x y H1 H2 E; cbn [app] in E.
  - injection E as ->. auto.
  - injection E as <- _. inversion H2; congruence.
  - injection E as -> _. inversion H1; congruence.
  - injection E as -> E. inversion H1; inversion H2; subst.
    destruct (IH l2 x y) as [-> ->]; auto.
Qed.

(** X7. Two identifiers made by [generateId] are equal exactly when both the
    reading of [Date.now()] and the nine characters taken from the random
    text are equal: a different millisecond or a different random part gives
    a different identifier. *)
Theorem generateId_equal_iff (env1 env2 : Env) :
  generateId env1 = generateId env2
  <-> Date_now env1 = Date_now env2
      /\ substring 2 11 (Math_random_36 env1) = substring 2 11 (Math_random_36 env2).
Proof.
  unfold generateId. split.
  - intros H. apply app_inv_head in H.
    change (str "_") with [95%N] in H. cbn [app] in H.
    apply split_at_separator in H; try apply Z_to_jsstring_no_underscore.
    destruct H as [Hd Hr]. split; [now apply Z_to_jsstring_inj|exact Hr].
  - intros [-> ->]. reflexivity.
Qed.

(** ** Statistics and views *)

Lemma round_nearest_even_exact k b : 0 < b -> round_nearest_even (k * b) b = k.
Proof.
  intros Hb. unfold round_nearest_even.
  rewrite Z.mod_mul, Z.div_mul by lia.
  destruct (Z.ltb_spec (2 * 0) b); [reflexivity|lia].
Qed.

Lemma fl_unfold p q :
  p <> 0 ->
  mant (fl p q)
  = round_nearest_even (scale_num p (expo (fl p q))) (scale_den q (expo (fl p q))).
Proof.
  intros Hp. unfold fl. destruct (Z.eqb_spec p 0); [contradiction|reflexivity].
Qed.

(** A quotient that is an integer below 2^53 is computed exactly. *)
Lemma fl_exact K q :
  0 < q -> 0 < K < 2 ^ 53 ->
  expo (fl (K * q) q) <= 0
  /\ mant (fl (K * q) q) = K * 2 ^ (- expo (fl (K * q) q)).
Proof.
  intros Hq HK.
  destruct (fl_bound (K * q) q K ltac:(nia) Hq ltac:(lia) ltac:(lia)) as [He _].
  split; [exact He|].
  rewrite fl_unfold by nia.
  set (e := expo (fl (K * q) q)) in *.
  destruct (Z.eq_dec e 0) as [->|Hne].
  - destruct (scale_nonneg (K * q) q 0 ltac:(lia)) as [-> ->]. cbn.
    rewrite Z.mul_1_r. rewrite round_nearest_even_exact by lia. lia.
  - destruct (scale_neg (K * q) q e ltac:(lia)) as [-> ->].
    replace (K * q * 2 ^ (- e)) with (K * 2 ^ (- e) * q) by ring.
    now apply round_nearest_even_exact.
Qed.

Lemma completion_rate_all c : 0 < c -> Math_round (fl_mul (fl_div c c) 100) = 100.
Proof.
  intros Hc. unfold fl_div.
  destruct (fl_exact 1 c Hc ltac:(lia)) as [He1 Hm1].
  rewrite Z.mul_1_l in *.
  unfold fl_mul. rewrite Hm1.
  set (e1 := expo (fl c c)) in *.
  destruct (scale_nonneg (1 * 2 ^ (- e1) * 100) 1 (- e1) ltac:(lia)) as [-> ->].
  assert (HE1 : 0 < 2 ^ (- e1)) by (apply Z.pow_pos_nonneg; lia).
  replace (1 * 2 ^ (- e1) * 100) with (100 * (1 * 2 ^ (- e1))) by ring.
  destruct (fl_exact 100 (1 * 2 ^ (- e1)) ltac:(lia) ltac:(lia)) as [He2 Hm2].
  unfold Math_round. rewrite Hm2.
  set (e2 := expo (fl (100 * (1 * 2 ^ (- e1))) (1 * 2 ^ (- e1)))) in *.
  assert (HE2 : 0 < 2 ^ (- e2)) by (apply Z.pow_pos_nonneg; lia).
  destruct (Z.leb_spec 0 e2).
  - replace e2 with 0 by lia. reflexivity.
  - symmetry. apply (Z.div_unique _ _ _ (2 ^ (- e2))); lia.
Qed.

Lemma filter_none {A} (p : A -> bool) (l : list A) :
  Forall (fun x => p x = false) l -> List.filter p l = [].
Proof.
  induction 1 as [|x l Hx Hl IH]; [reflexivity|].
  cbn [List.filter]. now rewrite Hx.
Qed.

Lemma filter_every {A} (p : A -> bool) (l : list A) :
  Forall (fun x => p x = true) l -> List.filter p l = l.
Proof.
  induction 1 as [|x l Hx Hl IH]; [reflexivity|].
  cbn [List.filter]. now rewrite Hx, IH.
Qed.

(** X8. The numbers of [calculateStats] are the lengths of the three views
    of [filterTasks]: [total] of the view [all], [completed] of the view
    [completed] and [pending] of the view [active]. *)
Theorem calculateStats_counts_the_views (tasks : list TaskEntity) :
  total (calculateStats tasks) = Z.of_nat (length (filterTasks tasks all))
  /\ stat_completed (calculateStats tasks)
     = Z.of_nat (length (filterTasks tasks filter_completed))
  /\ stat_pending (calculateStats tasks)
     = Z.of_nat (length (filterTasks tasks active)).
Proof.
  unfold calculateStats, filterTasks; cbn.
  pose proof (Permutation_length
    (filter_split_perm (fun t : TaskEntity => status_eqb (status t) pending)
       (fun t => status_eqb (status t) completed) tasks
       (fun t => status_pending_or_completed (status t)))) as Hlen.
  rewrite length_app in Hlen.
  rewrite (filter_every (fun _ => true)) by (apply List.Forall_forall; reflexivity).
  repeat split. lia.
Qed.

(** X9. When every task of a list that is not empty is completed the
    completion rate is exactly 100, and when no task is completed it is 0. *)
Theorem calculateStats_rate_extremes (tasks : list TaskEntity) :
  (tasks <> [] -> Forall (fun t => status t = completed) tasks ->
   completionRate (calculateStats tasks) = 100)
  /\ (Forall (fun t => status t = pending) tasks ->
      completionRate (calculateStats tasks) = 0).
Proof.
  split.
  - intros Hne Hall. unfold calculateStats; cbn.
    rewrite filter_every
      by (eapply Forall_impl; [exact Hall|]; intros t ->; reflexivity).
    destruct tasks as [|t l]; [congruence|].
    destruct (Z.gtb_spec (Z.of_nat (length (t :: l))) 0) as [H|H];
      [|cbn [length] in H; lia].
    now apply completion_rate_all.
  - intros Hnone. unfold calculateStats; cbn.
    rewrite filter_none
      by (eapply Forall_impl; [exact Hnone|]; intros t ->; reflexivity).
    destruct (_ >? 0); reflexivity.
Qed.

Lemma calculateStats_rate_extremes_witness :
  [sample_task "task_1" "done" completed 1000 2000;
   sample_task "task_3" "third" completed 1000 1500] <> []
  /\ completionRate
       (calculateStats [sample_task "task_1" "done" completed 1000 2000;
                        sample_task "task_3" "third" completed 1000 1500]) = 100
  /\ completionRate (calculateStats [stored_task; created_task]) = 0.
Proof.
  assert (H1 : [sample_task "task_1" "done" completed 1000 2000;
                sample_task "task_3" "third" completed 1000 1500] <> [])
    by discriminate.
  split; [exact H1|]. split.
  - apply (proj1 (calculateStats_rate_extremes _) H1).
    repeat constructor.
  - apply (proj2 (calculateStats_rate_extremes [stored_task; created_task])).
    repeat constructor.
Defined.

(** X10. For a list of fewer than 2^32 tasks the completion rate is the
    exact percentage rounded half up whenever the exact percentage is not
    half-way between two integers, and at such a tie it is that value or one
    less. *)
Theorem calculateStats_rate_is_nearest (tasks : list TaskEntity) :
  Z.of_nat (length tasks) < 2 ^ 32 ->
  let s := calculateStats tasks in
  ((200 * stat_completed s + total s) mod (2 * total s) <> 0 ->
     completionRate s = exact_completion_rate (stat_completed s) (total s))
  /\ (completionRate s = exact_completion_rate (stat_completed s) (total s)
      \/ completionRate s = exact_completion_rate (stat_completed s) (total s) - 1).
Proof.
  intros Hlen. unfold calculateStats, exact_completion_rate; cbn.
  pose proof (filter_length_le
                (fun t => status_eqb (status t) completed) tasks) as Hle.
  destruct (Z.gtb_spec (Z.of_nat (length tasks)) 0); [|auto].
  apply completion_rate_off_ties; lia.
Qed.

Lemma calculateStats_rate_is_nearest_witness :
  Z.of_nat (length tasks_29_of_200) < 2 ^ 32
  /\ (let s := calculateStats tasks_29_of_200 in
      ((200 * stat_completed s + total s) mod (2 * total s) <> 0 ->
         completionRate s = exact_completion_rate (stat_completed s) (total s))
      /\ (completionRate s = exact_completion_rate (stat_completed s) (total s)
          \/ completionRate s
             = exact_completion_rate (stat_completed s) (total s) - 1)).
Proof.
  assert (H : Z.of_nat (length tasks_29_of_200) < 2 ^ 32) by (vm_compute; reflexivity).
  split; [exact H|].
  exact (calculateStats_rate_is_nearest tasks_29_of_200 H).
Defined.

(** ** Sorting and filtering together *)

Lemma StronglySorted_filter {A} (R : A -> A -> Prop) (p : A -> bool) (l : list A) :
  StronglySorted R l -> StronglySorted R (List.filter p l).
Proof.
  induction 1 as [|x l Hs IH Hx]; [constructor|].
  cbn [List.filter]. destruct (p x); [|exact IH].
  constructor; [exact IH|].
  apply List.Forall_forall. intros y Hy. apply filter_In in Hy as [Hy _].
  rewrite List.Forall_forall in Hx. now apply Hx.
Qed.

Lemma filter_filter_comm {A} (p q : A -> bool) (l : list A) :
  List.filter p (List.filter q l) = List.filter q (List.filter p l).
Proof.
  induction l as [|x l IH]; [reflexivity|].
  cbn [List.filter]. destruct (p x) eqn:Hp, (q x) eqn:Hq; cbn [List.filter];
    rewrite ?Hp, ?Hq, IH; reflexivity.
Qed.

Lemma Forall_filter_keep {A} (P : A -> Prop) (p : A -> bool) (l : list A) :
  Forall P l -> Forall P (List.filter p l).
Proof.
  intros H. apply List.Forall_forall. intros y Hy. apply filter_In in Hy as [Hy _].
  rewrite List.Forall_forall in H. now apply H.
Qed.

Lemma sort_filter_commute (p : TaskEntity -> bool) (descending : bool)
    (tasks : list TaskEntity) :
  Forall valid_creation tasks ->
  List.filter p (sortTasksByCreationDate tasks descending)
  = sortTasksByCreationDate (List.filter p tasks) descending.
Proof.
  intros Hvalid. unfold sortTasksByCreationDate.
  pose proof (creation_comparator_key descending) as Hkey.
  apply (Array_sort_canonical _ _ _ Hkey).
  - now apply Forall_filter_keep.
  - apply StronglySorted_filter. now apply (Array_sort_sorted _ _ _ Hkey).
  - intros k. rewrite filter_filter_comm.
    rewrite (Array_sort_stable _ _ _ Hkey) by exact Hvalid.
    apply filter_filter_comm.
Qed.

(** X11. On tasks with valid creation dates, filtering the sorted list gives
    the same list as sorting the filtered one, for each of the three filters
    and both directions; so the list the hook displays is the sorted view of
    the tasks the filter selects. *)
Theorem filterTasks_commutes_with_sort
    (tasks : list TaskEntity) (filterType : FilterType) (descending : bool) :
  Forall valid_creation tasks ->
  filterTasks (sortTasksByCreationDate tasks descending) filterType
  = sortTasksByCreationDate (filterTasks tasks filterType) descending
  /\ hook_filteredTasks true tasks filterType
     = sortTasksByCreationDate (filterTasks tasks filterType) true.
Proof.
  intros Hvalid. unfold hook_filteredTasks, hook_sortedTasks, filterTasks.
  split; now apply sort_filter_commute.
Qed.

Lemma filterTasks_commutes_with_sort_witness :
  Forall valid_creation tasks_with_a_tie
  /\ filterTasks (sortTasksByCreationDate tasks_with_a_tie true) active
     = sortTasksByCreationDate (filterTasks tasks_with_a_tie active) true
  /\ hook_filteredTasks true tasks_with_a_tie active
     = sortTasksByCreationDate (filterTasks tasks_with_a_tie active) true.
Proof.
  assert (H : Forall valid_creation tasks_with_a_tie) by (repeat constructor).
  split; [exact H|].
  exact (filterTasks_commutes_with_sort tasks_with_a_tie active true H).
Defined.

(** X12. On tasks with valid creation dates, sorting a list that is already
    sorted in the same direction changes nothing, and sorting keeps the
    number of tasks. *)
Theorem sortTasksByCreationDate_idempotent
    (tasks : list TaskEntity) (descending : bool) :
  Forall valid_creation tasks ->
  sortTasksByCreationDate (sortTasksByCreationDate tasks descending) descending
  = sortTasksByCreationDate tasks descending
  /\ length (sortTasksByCreationDate tasks descending) = length tasks.
Proof.
  intros Hvalid. unfold sortTasksByCreationDate.
  pose proof (creation_comparator_key descending) as Hkey.
  split.
  - symmetry. apply (Array_sort_canonical _ _ _ Hkey).
    + now apply Array_sort_good.
    + now apply (Array_sort_sorted _ _ _ Hkey).
    + reflexivity.
  - apply Permutation_length, Array_sort_perm.
Qed.

Lemma sortTasksByCreationDate_idempotent_witness :
  Forall valid_creation tasks_with_a_tie
  /\ sortTasksByCreationDate (sortTasksByCreationDate tasks_with_a_tie true) true
     = sortTasksByCreationDate tasks_with_a_tie true
  /\ length (sortTasksByCreationDate tasks_with_a_tie true)
     = length tasks_with_a_tie.
Proof.
  assert (H : Forall valid_creation tasks_with_a_tie) by (repeat constructor).
  split; [exact H|].
  exact (sortTasksByCreationDate_idempotent tasks_with_a_tie true H).
Defined.

(** ** Searching *)

Lemma starts_with_spec q s :
  starts_with q s = true <-> exists post, s = q ++ post.
Proof.
  revert s. induction q as [|a q IH]; intros s.
  - cbn. split; [intros _; now exists s|reflexivity].
  - destruct s as [|b s]; cbn [starts_with].
    + split; [discriminate|intros [post H]; discriminate].
    + rewrite andb_true_iff, N.eqb_eq, IH. split.
      * intros [-> [post ->]]. now exists post.
      * intros [post H]. injection H as -> ->. eauto.
Qed.

Lemma includes_spec s q :
  includes s q = true <-> exists pre post, s = pre ++ q ++ post.
Proof.
  induction s as [|c s IH].
  - cbn [includes]. rewrite orb_false_r, starts_with_spec. split.
    + intros [post H]. now exists [], post.
    + intros (pre & post & H). destruct pre; [now exists post|discriminate].
  - cbn [includes]. rewrite orb_true_iff, starts_with_spec, IH. split.
    + intros [[post H]|(pre & post & H)].
      * now exists [], post.
      * exists (c :: pre), post. now rewrite H.
    + intros (pre & post & H). destruct pre as [|c' pre].
      * left. now exists post.
      * right. injection H as _ H. eauto.
Qed.

Lemma filter_idempotent {A} (p : A -> bool) (l : list A) :
  List.filter p (List.filter p l) = List.filter p l.
Proof.
  induction l as [|x l IH]; [reflexivity|].
  cbn [List.filter]. destruct (p x) eqn:Hp; [|exact IH].
  cbn [List.filter]. now rewrite Hp, IH.
Qed.

(** X13. Whatever the case mapping of the platform, [searchTasks] returns
    tasks of the list in the order of the list; a task is returned exactly
    when the trimmed lower-case query is empty or occurs inside the
    lower-case title; a query that is blank after lower-casing returns the
    whole list; and searching the result again for the same query returns
    the result. *)
Theorem searchTasks_spec (toLowerCase : jsstring -> jsstring)
    (tasks : list TaskEntity) (query : jsstring) :
  sublist (searchTasks toLowerCase tasks query) tasks
  /\ (forall t, In t (searchTasks toLowerCase tasks query)
                <-> In t tasks
                    /\ (trim (toLowerCase query) = []
                        \/ exists pre post,
                             toLowerCase (title t)
                             = pre ++ trim (toLowerCase query) ++ post))
  /\ (forallb is_ws (toLowerCase query) = true ->
      searchTasks toLowerCase tasks query = tasks)
  /\ searchTasks toLowerCase (searchTasks toLowerCase tasks query) query
     = searchTasks toLowerCase tasks query.
Proof.
  unfold searchTasks. cbn zeta.
  destruct (trim (toLowerCase query)) as [|c nq] eqn:Hq; cbn [is_nil].
  - split; [reflexivity|]. split; [intros t; tauto|]. split; reflexivity.
  - split; [apply filter_sublist|]. split; [|split].
    + intros t. rewrite filter_In, includes_spec. split.
      * intros [Ht H]. split; [exact Ht|right; exact H].
      * intros [Ht [H|H]]; [discriminate|]. split; [exact Ht|exact H].
    + intros Hblank. exfalso.
      pose proof (sanitizeTitle_nil_iff (toLowerCase query)) as [_ Hs].
      specialize (Hs Hblank). unfold sanitizeTitle in Hs. rewrite Hq in Hs.
      cbn in Hs. destruct (is_ws c); discriminate.
    + apply filter_idempotent.
Qed.

(** On ASCII text, where [toLowerCase] is [ascii_toLowerCase]: the query
    [REACT] finds the title [Learn React]. *)
Example searchTasks_example :
  searchTasks ascii_toLowerCase
    [sample_task "task_1" "Learn React" pending 1000 1000;
     sample_task "task_2" "Build Todo App" pending 2000 2000]
    (str " REACT ")
  = [sample_task "task_1" "Learn React" pending 1000 1000].
Proof. vm_compute. reflexivity. Qed.

(** ** The state updaters of the hook *)

Lemma jsstring_eqb_eq a b : jsstring_eqb a b = true <-> a = b.
Proof. unfold jsstring_eqb. apply bool_decide_eq_true. Qed.

Lemma jsstring_eqb_neq a b : jsstring_eqb a b = false <-> a <> b.
Proof. unfold jsstring_eqb. apply bool_decide_eq_false. Qed.

Lemma map_result_from_total {A B} (f : nat -> A -> Result B) (g : nat -> A -> B)
    (l : list A) : forall k,
  (forall i x, f i x = Ok (g i x)) ->
  map_result_from k f l = Ok (imap (fun i => g (k + i)%nat) l).
Proof.
  induction l as [|x l IH]; intros k Hf; [reflexivity|].
  cbn [map_result_from imap]. rewrite Hf, (IH (S k) Hf).
  rewrite Nat.add_0_r. do 2 f_equal.
  apply imap_ext. intros i y _. cbn. f_equal. lia.
Qed.

(** X14. [clearCompleted] leaves exactly the active view of the list: after
    it no task is completed, the statistics show zero completed tasks and a
    rate of zero, and a second [clearCompleted] changes nothing. *)
Theorem hook_clearCompleted_spec (prev : list TaskEntity) :
  hook_clearCompleted prev = filterTasks prev active
  /\ filterTasks (hook_clearCompleted prev) filter_completed = []
  /\ stat_completed (calculateStats (hook_clearCompleted prev)) = 0
  /\ completionRate (calculateStats (hook_clearCompleted prev)) = 0
  /\ hook_clearCompleted (hook_clearCompleted prev) = hook_clearCompleted prev.
Proof.
  assert (Hnone : Forall (fun t => status_eqb (status t) completed = false)
                    (hook_clearCompleted prev)).
  { apply List.Forall_forall. intros t Ht. apply filter_In in Ht as [_ Ht].
    now apply negb_true_iff in Ht. }
  assert (Hfil : List.filter (fun t => status_eqb (status t) completed)
                   (hook_clearCompleted prev) = [])
    by now apply filter_none.
  split; [|split; [|split; [|split]]].
  - unfold hook_clearCompleted, filterTasks; cbn.
    apply filter_ext. intros t. now destruct (status t).
  - exact Hfil.
  - unfold calculateStats; cbn. now rewrite Hfil.
  - unfold calculateStats; cbn. rewrite Hfil. cbn.
    destruct (_ >? 0); reflexivity.
  - apply filter_idempotent.
Qed.

(** X15. [deleteTask] removes every task with the identifier and nothing
    else: the tasks that remain are the tasks with another identifier, in
    the order they had; when no task has the identifier the list is
    unchanged; deleting twice is deleting once, and two deletions can be
    made in either order. *)
Theorem hook_deleteTask_spec (wanted other : jsstring) (prev : list TaskEntity) :
  (forall t, In t (hook_deleteTask wanted prev) <-> In t prev /\ id t <> wanted)
  /\ sublist (hook_deleteTask wanted prev) prev
  /\ (Forall (fun t => id t <> wanted) prev -> hook_deleteTask wanted prev = prev)
  /\ hook_deleteTask wanted (hook_deleteTask wanted prev)
     = hook_deleteTask wanted prev
  /\ hook_deleteTask wanted (hook_deleteTask other prev)
     = hook_deleteTask other (hook_deleteTask wanted prev).
Proof.
  unfold hook_deleteTask. split; [|split; [|split; [|split]]].
  - intros t. rewrite filter_In, negb_true_iff, jsstring_eqb_neq. tauto.
  - apply filter_sublist.
  - intros H. apply filter_every. eapply Forall_impl; [exact H|].
    intros t Ht. now apply negb_true_iff, jsstring_eqb_neq.
  - apply filter_idempotent.
  - apply filter_filter_comm.
Qed.

Lemma toggleTaskStatus_value now (t : TaskEntity) :
  toggleTaskStatus now t
  = Ok {| id := id t; title := title t; status := other_status (status t);
          createdAt := createdAt t; updatedAt := ValidDate now |}.
Proof.
  unfold toggleTaskStatus. rewrite updateTask_cases.
  destruct t as [i ti [] c u]; reflexivity.
Qed.

(** The task the hook puts in the place of [t] when it toggles [wanted]. *)
Lemma hook_toggle_value now_at wanted prev :
  hook_toggleTaskStatus now_at wanted prev
  = Ok (imap (fun i t =>
          if jsstring_eqb (id t) wanted
          then {| id := id t; title := title t;
                  status := other_status (status t);
                  createdAt := createdAt t; updatedAt := ValidDate (now_at i) |}
          else t) prev).
Proof.
  unfold hook_toggleTaskStatus.
  rewrite (map_result_from_total _
    (fun i t => if jsstring_eqb (id t) wanted
                then {| id := id t; title := title t;
                        status := other_status (status t);
                        createdAt := createdAt t; updatedAt := ValidDate (now_at i) |}
                else t)).
  - reflexivity.
  - intros i t. destruct (jsstring_eqb (id t) wanted); [|reflexivity].
    apply toggleTaskStatus_value.
Qed.

(** X16. The hook's [toggleTaskStatus] never throws. It keeps the length of
    the list and the identifier, title and creation date at every position;
    a task with another identifier is left as it is, and a task with the
    identifier gets the other status and the current time as [updatedAt].
    Toggling the same identifier a second time restores every status. *)
Theorem hook_toggleTaskStatus_spec (now_at now_at' : nat -> Z)
    (wanted : jsstring) (prev : list TaskEntity) :
  exists next next',
    hook_toggleTaskStatus now_at wanted prev = Ok next
    /\ hook_toggleTaskStatus now_at' wanted next = Ok next'
    /\ length next = length prev
    /\ (forall i t, prev !! i = Some t ->
          exists t', next !! i = Some t'
            /\ id t' = id t /\ title t' = title t /\ createdAt t' = createdAt t
            /\ (id t <> wanted -> t' = t)
            /\ (id t = wanted ->
                status t' = other_status (status t)
                /\ updatedAt t' = ValidDate (now_at i)))
    /\ List.map status next' = List.map status prev
    /\ List.map id next' = List.map id prev.
Proof.
  eexists. eexists. split; [apply hook_toggle_value|].
  split; [apply hook_toggle_value|].
  split; [apply length_imap|]. split; [|split].
  - intros i t Hi. eexists. split.
    + rewrite list_lookup_imap, Hi. reflexivity.
    + destruct (jsstring_eqb (id t) wanted) eqn:E; cbn.
      * apply jsstring_eqb_eq in E. repeat split; auto. congruence.
      * apply jsstring_eqb_neq in E. repeat split; auto; congruence.
  - apply list_eq. intros i. rewrite !list_lookup_fmap, !list_lookup_imap.
    destruct (prev !! i) as [t|]; [|reflexivity]. cbn.
    destruct (jsstring_eqb (id t) wanted) eqn:E; cbn; rewrite E; cbn;
      [destruct (status t)|]; reflexivity.
  - apply list_eq. intros i. rewrite !list_lookup_fmap, !list_lookup_imap.
    destruct (prev !! i) as [t|]; [|reflexivity]. cbn.
    destruct (jsstring_eqb (id t) wanted) eqn:E; cbn; rewrite E; reflexivity.
Qed.

Lemma updateTask_title_value now (t : TaskEntity) v :
  updateTask now t {| update_title := Some v; update_status := None |}
  = if validateTitle (sanitizeTitle v)
    then Ok {| id := id t; title := sanitizeTitle v; status := status t;
               createdAt := createdAt t; updatedAt := ValidDate now |}
    else Throw title_error.
Proof. now rewrite updateTask_cases. Qed.

Lemma hook_update_untouched (f : nat -> TaskEntity -> Result TaskEntity)
    (l : list TaskEntity) : forall k,
  Forall (fun t => forall i, f i t = Ok t) l -> map_result_from k f l = Ok l.
Proof.
  induction l as [|x l IH]; intros k H; [reflexivity|].
  inversion H as [|? ? Hx Hl]; subst.
  cbn [map_result_from]. now rewrite Hx, (IH (S k) Hl).
Qed.

Lemma hook_update_throws (f : nat -> TaskEntity -> Result TaskEntity) e
    (l : list TaskEntity) : forall k,
  Forall (fun t => forall i, f i t = Ok t \/ f i t = Throw e) l ->
  Exists (fun t => forall i, f i t = Throw e) l ->
  map_result_from k f l = Throw e.
Proof.
  induction l as [|x l IH]; intros k Hall Hex; [inversion Hex|].
  inversion Hall as [|? ? Hx Hl]; subst.
  cbn [map_result_from].
  inversion Hex as [? ? Hthrow|? ? Hlater]; subst.
  - now rewrite Hthrow.
  - destruct (Hx k) as [-> | ->]; [|reflexivity].
    now rewrite (IH (S k) Hl Hlater).
Qed.

(** X17. The hook's [updateTask]: when no task has the identifier the list
    is returned unchanged, whatever the title is; when a task has it and the
    normalized title is not of 1 to 255 code units the update throws the
    title error and produces no list; otherwise every task with the
    identifier gets the normalized title and the current time as
    [updatedAt], and every other task, and every identifier, status and
    creation date, stays as it was. *)
Theorem hook_updateTask_spec (now_at : nat -> Z) (wanted new_title : jsstring)
    (prev : list TaskEntity) :
  (Forall (fun t => id t <> wanted) prev ->
   hook_updateTask now_at wanted new_title prev = Ok prev)
  /\ (validateTitle (sanitizeTitle new_title) = false ->
      Exists (fun t => id t = wanted) prev ->
      hook_updateTask now_at wanted new_title prev = Throw title_error)
  /\ (validateTitle (sanitizeTitle new_title) = true ->
      hook_updateTask now_at wanted new_title prev
      = Ok (imap (fun i t =>
              if jsstring_eqb (id t) wanted
              then {| id := id t; title := sanitizeTitle new_title;
                      status := status t; createdAt := createdAt t;
                      updatedAt := ValidDate (now_at i) |}
              else t) prev)).
Proof.
  unfold hook_updateTask. split; [|split].
  - intros Hnone. apply hook_update_untouched.
    eapply Forall_impl; [exact Hnone|]. intros t Ht i.
    apply jsstring_eqb_neq in Ht. now rewrite Ht.
  - intros Hbad Hsome. apply hook_update_throws.
    + apply List.Forall_forall. intros t _ i.
      destruct (jsstring_eqb (id t) wanted); [right|left; reflexivity].
      now rewrite updateTask_title_value, Hbad.
    + eapply Exists_impl; [exact Hsome|]. intros t Ht i.
      apply jsstring_eqb_eq in Ht. now rewrite Ht, updateTask_title_value, Hbad.
  - intros Hgood.
    rewrite (map_result_from_total _
      (fun i t => if jsstring_eqb (id t) wanted
                  then {| id := id t; title := sanitizeTitle new_title;
                          status := status t; createdAt := createdAt t;
                          updatedAt := ValidDate (now_at i) |}
                  else t)); [reflexivity|].
    intros i t. destruct (jsstring_eqb (id t) wanted); [|reflexivity].
    now rewrite updateTask_title_value, Hgood.
Qed.

Lemma hook_updateTask_spec_witness :
  hook_updateTask (fun i => 5000 + Z.of_nat i) (str "task_9") (str "   ")
    tasks_with_a_tie = Ok tasks_with_a_tie
  /\ hook_updateTask (fun i => 5000 + Z.of_nat i) (str "task_2") (str "   ")
       tasks_with_a_tie = Throw title_error
  /\ hook_updateTask (fun i => 5000 + Z.of_nat i) (str "task_2") (str " new  title ")
       tasks_with_a_tie
     = Ok [sample_task "task_1" "first" pending 2000 2000;
           sample_task "task_2" "new title" pending 1000 5001;
           sample_task "task_3" "third" completed 1000 1500].
Proof.
  pose proof (hook_updateTask_spec (fun i => 5000 + Z.of_nat i) (str "task_9")
                (str "   ") tasks_with_a_tie) as (Habsent & _ & _).
  pose proof (hook_updateTask_spec (fun i => 5000 + Z.of_nat i) (str "task_2")
                (str "   ") tasks_with_a_tie) as (_ & Hthrow & _).
  pose proof (hook_updateTask_spec (fun i => 5000 + Z.of_nat i) (str "task_2")
                (str " new  title ") tasks_with_a_tie) as (_ & _ & Hok).
  split; [|split].
  - apply Habsent. repeat constructor; discriminate.
  - apply Hthrow; [reflexivity|]. right. left. reflexivity.
  - rewrite (Hok eq_refl). reflexivity.
Defined.

Lemma filter_snoc {A} (p : A -> bool) (l : list A) (x : A) :
  List.filter p (l ++ [x]) = List.filter p l ++ (if p x then [x] else []).
Proof. rewrite List.filter_app. reflexivity. Qed.

(** X18. Adding a task that [createTask] returned puts it last in the list
    and last in the active view, leaves the completed view as it was, and
    raises the total and the pending count of the statistics by one. *)
Theorem hook_addTask_created (env : Env) (data : TaskCreationData)
    (task : TaskEntity) (prev : list TaskEntity) :
  createTask env data = Ok task ->
  let next := hook_addTask task prev in
  last next = Some task
  /\ filterTasks next active = filterTasks prev active ++ [task]
  /\ filterTasks next filter_completed = filterTasks prev filter_completed
  /\ total (calculateStats next) = total (calculateStats prev) + 1
  /\ stat_pending (calculateStats next) = stat_pending (calculateStats prev) + 1
  /\ stat_completed (calculateStats next) = stat_completed (calculateStats prev).
Proof.
  intros Hc. destruct (createTask_dates_equal env data task Hc) as (_ & _ & Hs).
  cbn zeta. unfold hook_addTask, filterTasks, calculateStats; cbn.
  rewrite !filter_snoc, Hs, !length_app. cbn.
  rewrite app_nil_r, last_snoc. repeat split; lia.
Qed.

Lemma hook_addTask_created_witness :
  createTask sample_env {| creation_title := str "  a   b  " |} = Ok created_task
  /\ (let next := hook_addTask created_task tasks_with_a_tie in
      last next = Some created_task
      /\ filterTasks next active
         = filterTasks tasks_with_a_tie active ++ [created_task]
      /\ filterTasks next filter_completed
         = filterTasks tasks_with_a_tie filter_completed
      /\ total (calculateStats next)
         = total (calculateStats tasks_with_a_tie) + 1
      /\ stat_pending (calculateStats next)
         = stat_pending (calculateStats tasks_with_a_tie) + 1
      /\ stat_completed (calculateStats next)
         = stat_completed (calculateStats tasks_with_a_tie)).
Proof.
  assert (H : createTask sample_env {| creation_title := str "  a   b  " |}
              = Ok created_task) by reflexivity.
  split; [exact H|].
  exact (hook_addTask_created _ _ _ tasks_with_a_tie H).
Defined.

(** ** Saving, clearing and reading records *)





(** X19. When the text of the collection is within the size limit and fits
    the quota, [save] succeeds with a single call of [setItem]: afterwards
    the entry of the storage key holds exactly that text, replacing
    whatever was there, and every other entry is as before. *)
Theorem save_stores_the_text (tasks : list TaskEntity) (serialized : jsstring)
    (st : LocalStorage) :
  serialize_tasks tasks = Ok serialized ->
  js_length serialized <= MAX_STORAGE_SIZE ->
  used_space (<[STORAGE_KEY := serialized]> (items st)) <= quota st ->
  save tasks st
  = (Ok tt, mkStorage (<[STORAGE_KEY := serialized]> (items st)) (quota st)
              (call_setItem STORAGE_KEY serialized :: calls st))
  /\ fst (getItem STORAGE_KEY (snd (save tasks st))) = Some serialized
  /\ forall key, key <> STORAGE_KEY ->
       items (snd (save tasks st)) !! key = items st !! key.
Proof.
  intros Hs Hlen Hquota.
  assert (Hsave : save tasks st
    = (Ok tt, mkStorage (<[STORAGE_KEY := serialized]> (items st)) (quota st)
                (call_setItem STORAGE_KEY serialized :: calls st))).
  { unfold save, save_try, setItem. rewrite Hs.
    destruct (Z.gtb_spec (js_length serialized) MAX_STORAGE_SIZE); [lia|].
    destruct (Z.gtb_spec (used_space (<[STORAGE_KEY:=serialized]> (items st)))
                (quota st)); [lia|reflexivity]. }
  rewrite Hsave. cbn [snd fst getItem items]. split; [reflexivity|]. split.
  - apply lookup_insert_eq.
  - intros key Hkey. now apply lookup_insert_ne.
Qed.

Lemma save_stores_the_text_witness :
  serialize_tasks [stored_task] = Ok (JSON_stringify (JArray [stored_record]))
  /\ js_length (JSON_stringify (JArray [stored_record])) <= MAX_STORAGE_SIZE
  /\ used_space (<[STORAGE_KEY := JSON_stringify (JArray [stored_record])]>
                   (items (empty_storage 10000000)))
     <= quota (empty_storage 10000000)
  /\ fst (getItem STORAGE_KEY (snd (save [stored_task] (empty_storage 10000000))))
     = Some (JSON_stringify (JArray [stored_record])).
Proof.
  assert (H1 : serialize_tasks [stored_task]
               = Ok (JSON_stringify (JArray [stored_record]))) by reflexivity.
  assert (H2 : js_length (JSON_stringify (JArray [stored_record]))
               <= MAX_STORAGE_SIZE) by (vm_compute; discriminate).
  assert (H3 : used_space (<[STORAGE_KEY := JSON_stringify (JArray [stored_record])]>
                             (items (empty_storage 10000000)))
               <= quota (empty_storage 10000000)) by (vm_compute; discriminate).
  split; [exact H1|]. split; [exact H2|]. split; [exact H3|].
  exact (proj1 (proj2 (save_stores_the_text [stored_task] _
                         (empty_storage 10000000) H1 H2 H3))).
Defined.

(** X20. When the text is within the size limit but does not fit the quota
    of the storage, [save] fails with the message that asks to clear some
    tasks, after one call of [setItem] that stored nothing. *)
Theorem save_over_quota (tasks : list TaskEntity) (serialized : jsstring)
    (st : LocalStorage) :
  serialize_tasks tasks = Ok serialized ->
  js_length serialized <= MAX_STORAGE_SIZE ->
  quota st < used_space (<[STORAGE_KEY := serialized]> (items st)) ->
  save tasks st
  = (Throw quota_message_error,
     mkStorage (items st) (quota st)
       (call_setItem STORAGE_KEY serialized :: calls st)).
Proof.
  intros Hs Hlen Hquota. unfold save, save_try, setItem. rewrite Hs.
  destruct (Z.gtb_spec (js_length serialized) MAX_STORAGE_SIZE); [lia|].
  destruct (Z.gtb_spec (used_space (<[STORAGE_KEY:=serialized]> (items st)))
              (quota st)); [reflexivity|lia].
Qed.

Lemma save_over_quota_witness :
  serialize_tasks [stored_task] = Ok (JSON_stringify (JArray [stored_record]))
  /\ js_length (JSON_stringify (JArray [stored_record])) <= MAX_STORAGE_SIZE
  /\ quota (empty_storage 100)
     < used_space (<[STORAGE_KEY := JSON_stringify (JArray [stored_record])]>
                     (items (empty_storage 100)))
  /\ save [stored_task] (empty_storage 100)
     = (Throw quota_message_error,
        mkStorage (items (empty_storage 100)) (quota (empty_storage 100))
          (call_setItem STORAGE_KEY (JSON_stringify (JArray [stored_record]))
             :: calls (empty_storage 100))).
Proof.
  assert (H1 : serialize_tasks [stored_task]
               = Ok (JSON_stringify (JArray [stored_record]))) by reflexivity.
  assert (H2 : js_length (JSON_stringify (JArray [stored_record]))
               <= MAX_STORAGE_SIZE) by (vm_compute; discriminate).
  assert (H3 : quota (empty_storage 100)
               < used_space (<[STORAGE_KEY := JSON_stringify (JArray [stored_record])]>
                               (items (empty_storage 100))))
    by (vm_compute; reflexivity).
  split; [exact H1|]. split; [exact H2|]. split; [exact H3|].
  exact (save_over_quota [stored_task] _ (empty_storage 100) H1 H2 H3).
Defined.



Lemma save_items_cases (tasks : list TaskEntity) (st : LocalStorage) :
  items (snd (save tasks st)) = items st
  \/ exists text, items (snd (save tasks st)) = <[STORAGE_KEY := text]> (items st).
Proof.
  unfold save, save_try.
  destruct (serialize_tasks tasks) as [text|e].
  - destruct (js_length text >? MAX_STORAGE_SIZE); [now left|].
    unfold setItem. destruct (used_space _ >? quota st); cbn; [now left|eauto].
  - destruct (jsstring_eqb (name e) (str "QuotaExceededError")); now left.
Qed.


(** X23. [clear] removes the entry of the storage key and nothing else, and
    clearing a storage that has no such entry leaves its items as they are;
    after a [save], [clear] removes what was saved. *)
Theorem clear_removes_the_entry (tasks : list TaskEntity) (st : LocalStorage) :
  items (clear st) !! STORAGE_KEY = None
  /\ (forall key, key <> STORAGE_KEY -> items (clear st) !! key = items st !! key)
  /\ (items st !! STORAGE_KEY = None -> items (clear st) = items st)
  /\ items (clear (clear st)) = items (clear st)
  /\ items (clear (snd (save tasks st))) = items (clear st).
Proof.
  unfold clear, removeItem; cbn [items].
  split; [apply lookup_delete_eq|]. split; [|split; [|split]].
  - intros key Hkey. now apply lookup_delete_ne.
  - apply delete_id.
  - apply delete_delete_eq.
  - destruct (save_items_cases tasks st) as [->|[text ->]]; [reflexivity|].
    apply delete_insert_eq.
Qed.

(** X24. [findById] returns [null] for every identifier and every content
    of the storage, because [findAll] returns no task; like [findAll] it
    reads the storage once and changes neither the items nor the quota. *)
Theorem findById_returns_null `{Platform} (wanted : jsstring) (st : LocalStorage) :
  fst (findById wanted st) = None
  /\ snd (findById wanted st)
     = mkStorage (items st) (quota st) (call_getItem STORAGE_KEY :: calls st)
  /\ snd (findAll st)
     = mkStorage (items st) (quota st) (call_getItem STORAGE_KEY :: calls st).
Proof.
  assert (Hall : snd (findAll st)
     = mkStorage (items st) (quota st) (call_getItem STORAGE_KEY :: calls st)).
  { unfold findAll, getItem.
    destruct (items st !! STORAGE_KEY) as [[|c data]|]; try reflexivity.
    destruct (JSON_parse (c :: data)) as [[]|]; reflexivity. }
  unfold findById. pose proof (findAll_returns_nothing st) as Hnone.
  destruct (findAll st) as [tasks st']. cbn [fst snd] in *. subst tasks.
  split; [reflexivity|]. split; exact Hall.
Qed.

(** X25. What [serializeTask] writes, [deserializeTask] accepts: the record
    of a task passes [isValidTaskData], and when the platform reads the two
    ISO texts back as the dates they were written from, [deserializeTask]
    called on the repository returns the task itself. *)
Theorem deserialize_serialize `{Platform} (task : TaskEntity) (record : JSON) :
  serializeTask task = Ok record ->
  reads_back_date (createdAt task) ->
  reads_back_date (updatedAt task) ->
  isValidTaskData record = true
  /\ deserializeTask this_repository record = Some task.
Proof.
  unfold serializeTask, reads_back_date.
  intros Hs (c & Hc & Hdc) (u & Hu & Hdu). rewrite Hc, Hu in Hs.
  apply Ok_inj in Hs. subst record.
  assert (Hstatus : as_status (Some (JString (status_text (status task))))
                    = Some (status task)) by (destruct (status task); reflexivity).
  assert (Hvalid : isValidTaskData
            (JObject [(str "id", JString (id task));
                      (str "title", JString (title task));
                      (str "status", JString (status_text (status task)));
                      (str "createdAt", JString c);
                      (str "updatedAt", JString u)]) = true)
    by (destruct (status task); reflexivity).
  split; [exact Hvalid|].
  unfold deserializeTask. rewrite Hvalid. cbn [negb].
  change (get_property _ "id") with (Some (JString (id task))).
  change (get_property _ "title") with (Some (JString (title task))).
  change (get_property _ "status")
    with (Some (JString (status_text (status task)))).
  change (get_property _ "createdAt") with (Some (JString c)).
  change (get_property _ "updatedAt") with (Some (JString u)).
  rewrite Hstatus. cbn. rewrite Hdc, Hdu. now destruct task.
Qed.

Lemma deserialize_serialize_witness :
  serializeTask stored_task = Ok stored_record
  /\ reads_back_date (H := reference_platform) (createdAt stored_task)
  /\ reads_back_date (H := reference_platform) (updatedAt stored_task)
  /\ isValidTaskData stored_record = true
  /\ deserializeTask (H := reference_platform) this_repository stored_record
     = Some stored_task.
Proof.
  assert (H1 : serializeTask stored_task = Ok stored_record) by reflexivity.
  assert (H2 : reads_back_date (H := reference_platform) (createdAt stored_task)).
  { eexists. split; [reflexivity|]. vm_compute. reflexivity. }
  assert (H3 : reads_back_date (H := reference_platform) (updatedAt stored_task)).
  { eexists. split; [reflexivity|]. vm_compute. reflexivity. }
  split; [exact H1|]. split; [exact H2|]. split; [exact H3|].
  exact (deserialize_serialize (H := reference_platform) stored_task stored_record
           H1 H2 H3).
Defined.

(** ** The first version of the repository *)

Lemma legacy_serializeTask_invalid (task : TaskRepository.Task) :
  TaskRepository.createdAt task = InvalidDate
  \/ TaskRepository.updatedAt task = InvalidDate ->
  TaskRepository.serializeTask task = Throw range_error.
Proof.
  unfold TaskRepository.serializeTask. intros [H|H]; rewrite H.
  - reflexivity.
  - destruct (TaskRepository.createdAt task); cbn [toISOString]; [|reflexivity].
    now destruct (civil_from_days _) as [[y m] d].
Qed.

Lemma map_result_throws {A B} (f : A -> Result B) (l : list A) :
  Exists (fun x => exists e, f x = Throw e) l ->
  exists e, map_result f l = Throw e.
Proof.
  induction 1 as [x l [e He]|x l Hl [e IH]]; cbn [map_result].
  - rewrite He. eauto.
  - destruct (f x); [|eauto]. rewrite IH. eauto.
Qed.

Lemma setItem_other_keys key value st other :
  other <> key -> items (snd (setItem key value st)) !! other = items st !! other.
Proof.
  intros Hne. unfold setItem. destruct (_ >? _); cbn [snd items]; [reflexivity|].
  now apply lookup_insert_ne.
Qed.

Lemma persistTasks_cases (tasks : list TaskRepository.Task) (st : LocalStorage) :
  match fst (TaskRepository.persistTasks tasks st) with
  | Ok _ => True
  | Throw e => e = TaskRepository.persist_error
  end.
Proof.
  unfold TaskRepository.persistTasks.
  destruct (map_result TaskRepository.serializeTask tasks) as [records|e];
    [|reflexivity].
  unfold setItem. now destruct (_ >? _).
Qed.

(** X26. [persistTasks] either stores the text of the records under the
    storage key, or throws the one error [Failed to save tasks to
    localStorage] and leaves every item as it was; the entries of other keys
    are never touched. It throws whenever a task has an Invalid Date, and
    whenever the text does not fit the quota. *)
Theorem persistTasks_outcomes (tasks : list TaskRepository.Task) (st : LocalStorage) :
  (forall key, key <> TaskRepository.STORAGE_KEY ->
     items (snd (TaskRepository.persistTasks tasks st)) !! key = items st !! key)
  /\ match fst (TaskRepository.persistTasks tasks st) with
     | Ok _ =>
         exists records,
           map_result TaskRepository.serializeTask tasks = Ok records
           /\ items (snd (TaskRepository.persistTasks tasks st))
              = <[TaskRepository.STORAGE_KEY := JSON_stringify (JArray records)]>
                  (items st)
           /\ used_space (items (snd (TaskRepository.persistTasks tasks st)))
              <= quota st
     | Throw e =>
         e = TaskRepository.persist_error
         /\ items (snd (TaskRepository.persistTasks tasks st)) = items st
     end
  /\ (Exists (fun t => TaskRepository.createdAt t = InvalidDate
                       \/ TaskRepository.updatedAt t = InvalidDate) tasks ->
      TaskRepository.persistTasks tasks st
      = (Throw TaskRepository.persist_error, st)).
Proof.
  unfold TaskRepository.persistTasks. split; [|split].
  - intros key Hkey.
    destruct (map_result TaskRepository.serializeTask tasks) as [records|e];
      [|reflexivity].
    pose proof (setItem_other_keys TaskRepository.STORAGE_KEY
                  (JSON_stringify (JArray records)) st key Hkey) as Hother.
    destruct (setItem _ _ st) as [[[]|e] st']; exact Hother.
  - destruct (map_result TaskRepository.serializeTask tasks) as [records|e];
      [|now split].
    unfold setItem.
    destruct (Z.gtb_spec (used_space (<[TaskRepository.STORAGE_KEY :=
                JSON_stringify (JArray records)]> (items st))) (quota st));
      cbn [fst snd items].
    + now split.
    + exists records. split; [reflexivity|]. split; [reflexivity|lia].
  - intros Hbad.
    destruct (map_result_throws TaskRepository.serializeTask tasks) as [e ->];
      [|reflexivity].
    eapply Exists_impl; [exact Hbad|]. intros t Ht. cbn beta.
    rewrite (legacy_serializeTask_invalid t Ht). eauto.
Qed.

Lemma findIndex_none {A} (p : A -> bool) (l : list A) :
  TaskRepository.findIndex p l = None <-> List.Forall (fun x => p x = false) l.
Proof.
  induction l as [|x l IH]; cbn [TaskRepository.findIndex].
  - split; [constructor|reflexivity].
  - destruct (p x) eqn:Hp.
    + split; [discriminate|]. intros H. inversion H; congruence.
    + destruct (TaskRepository.findIndex p l); cbn.
      * split; [discriminate|]. intros H. inversion H; subst.
        now apply IH in H3.
      * split; [|reflexivity]. intros _. constructor; [exact Hp|now apply IH].
Qed.

Lemma findIndex_some {A} (p : A -> bool) (l : list A) (i : nat) :
  TaskRepository.findIndex p l = Some i ->
  exists before x after,
    l = before ++ x :: after /\ length before = i /\ p x = true
    /\ List.Forall (fun y => p y = false) before.
Proof.
  revert i. induction l as [|x l IH]; cbn [TaskRepository.findIndex]; intros i.
  - discriminate.
  - destruct (p x) eqn:Hp.
    + intros [= <-]. exists [], x, l. repeat split; auto.
    + destruct (TaskRepository.findIndex p l) as [j|] eqn:Hj; cbn; [|discriminate].
      intros [= <-].
      destruct (IH j eq_refl) as (before & y & after & -> & Hlen & Hy & Hb).
      exists (x :: before), y, after. repeat split; cbn; auto.
Qed.

Lemma find_app_none {A} (p : A -> bool) (l1 l2 : list A) :
  List.Forall (fun x => p x = false) l1 ->
  List.find p (l1 ++ l2) = List.find p l2.
Proof.
  induction 1 as [|x l1 Hx Hl IH]; cbn; [reflexivity|]. now rewrite Hx.
Qed.

Lemma jsstring_eqb_refl' (a : jsstring) : jsstring_eqb a a = true.
Proof. unfold jsstring_eqb. now apply bool_decide_eq_true. Qed.

(** The two shapes of the array [save] writes. *)
Lemma put_task_cases (task : TaskRepository.Task) (tasks : list TaskRepository.Task) :
  (List.Forall (fun t => jsstring_eqb (TaskRepository.id t)
                           (TaskRepository.id task) = false) tasks
   /\ TaskRepository.put_task task tasks = tasks ++ [task])
  \/ (exists before old after,
        tasks = before ++ old :: after
        /\ TaskRepository.id old = TaskRepository.id task
        /\ List.Forall (fun t => jsstring_eqb (TaskRepository.id t)
                                   (TaskRepository.id task) = false) before
        /\ TaskRepository.put_task task tasks = before ++ task :: after).
Proof.
  unfold TaskRepository.put_task.
  destruct (TaskRepository.findIndex _ tasks) as [i|] eqn:Hi.
  - right. apply findIndex_some in Hi.
    destruct Hi as (before & old & after & -> & Hlen & Hold & Hb).
    exists before, old, after. repeat split; auto.
    + unfold jsstring_eqb in Hold. now apply bool_decide_eq_true in Hold.
    + subst i. rewrite insert_app_r_alt by lia.
      now rewrite Nat.sub_diag.
  - left. now apply findIndex_none in Hi.
Qed.

Lemma findIndex_first {A} (p : A -> bool) (before after : list A) (x : A) :
  List.Forall (fun y => p y = false) before -> p x = true ->
  TaskRepository.findIndex p (before ++ x :: after) = Some (length before).
Proof.
  intros Hb Hx. induction Hb as [|y l Hy Hl IH]; cbn.
  - now rewrite Hx.
  - now rewrite Hy, IH.
Qed.

Lemma put_task_first (task : TaskRepository.Task)
    (before after : list TaskRepository.Task) :
  List.Forall (fun t => jsstring_eqb (TaskRepository.id t)
                          (TaskRepository.id task) = false) before ->
  TaskRepository.put_task task (before ++ task :: after) = before ++ task :: after.
Proof.
  intros Hb. unfold TaskRepository.put_task.
  rewrite (findIndex_first _ before after task Hb (jsstring_eqb_refl' _)).
  rewrite insert_app_r_alt by lia. now rewrite Nat.sub_diag.
Qed.

Lemma find_replace {A} (p : A -> bool) (before after : list A) (x y : A) :
  p x = false -> p y = false ->
  List.find p (before ++ x :: after) = List.find p (before ++ y :: after).
Proof.
  intros Hx Hy. induction before as [|z l IH]; cbn.
  - now rewrite Hx, Hy.
  - now rewrite IH.
Qed.

Lemma find_snoc_other {A} (p : A -> bool) (l : list A) (x : A) :
  p x = false -> List.find p (l ++ [x]) = List.find p l.
Proof.
  intros Hx. induction l as [|z l IH]; cbn.
  - now rewrite Hx.
  - now rewrite IH.
Qed.

(** X27. The array [save] writes: the task is the first one of its
    identifier in it, the lookup of any other identifier gives what it gave
    before, and the identifiers are those of before, in their order, with
    the one of the task added at the end when it was not among them; so
    identifiers that were distinct stay distinct, and putting the task in a
    second time changes nothing. *)
Theorem put_task_spec (task : TaskRepository.Task) (tasks : list TaskRepository.Task) :
  let ids := List.map TaskRepository.id in
  let lookup wanted :=
    List.find (fun t => jsstring_eqb (TaskRepository.id t) wanted) in
  let next := TaskRepository.put_task task tasks in
  lookup (TaskRepository.id task) next = Some task
  /\ (forall wanted, wanted <> TaskRepository.id task ->
        lookup wanted next = lookup wanted tasks)
  /\ ids next = (if bool_decide (TaskRepository.id task ∈ ids tasks)
                 then ids tasks else ids tasks ++ [TaskRepository.id task])
  /\ (NoDup (ids tasks) -> NoDup (ids next))
  /\ TaskRepository.put_task task next = next.
Proof.
  cbn zeta.
  assert (Hids : List.map TaskRepository.id (TaskRepository.put_task task tasks)
                 = (if bool_decide (TaskRepository.id task
                                      ∈ List.map TaskRepository.id tasks)
                    then List.map TaskRepository.id tasks
                    else List.map TaskRepository.id tasks ++ [TaskRepository.id task])).
  { destruct (put_task_cases task tasks)
      as [[Hnone ->]|(before & old & after & -> & Hold & Hb & ->)].
    - rewrite bool_decide_eq_false_2; [now rewrite List.map_app|].
      intros Hin. apply list_elem_of_fmap in Hin. destruct Hin as (t & Ht & Hin).
      apply list_elem_of_In in Hin.
      rewrite List.Forall_forall in Hnone. specialize (Hnone t Hin).
      rewrite <- Ht, jsstring_eqb_refl' in Hnone. discriminate.
    - rewrite bool_decide_eq_true_2.
      + rewrite !List.map_app. cbn [List.map]. now rewrite Hold.
      + rewrite List.map_app. cbn [List.map]. rewrite Hold.
        apply list_elem_of_In, in_or_app. right. now left. }
  split; [|split; [|split; [|split]]].
  - destruct (put_task_cases task tasks)
      as [[Hnone ->]|(before & old & after & -> & Hold & Hb & ->)].
    + rewrite find_app_none by exact Hnone. cbn. now rewrite jsstring_eqb_refl'.
    + rewrite find_app_none by exact Hb. cbn. now rewrite jsstring_eqb_refl'.
  - intros wanted Hne.
    assert (Htask : jsstring_eqb (TaskRepository.id task) wanted = false).
    { unfold jsstring_eqb. apply bool_decide_eq_false. congruence. }
    destruct (put_task_cases task tasks)
      as [[Hnone ->]|(before & old & after & -> & Hold & Hb & ->)].
    + now apply find_snoc_other.
    + apply find_replace; [exact Htask|now rewrite Hold].
  - exact Hids.
  - intros Hnodup. rewrite Hids. destruct (bool_decide_reflect
      (TaskRepository.id task ∈ List.map TaskRepository.id tasks)) as [Hin|Hout];
      [exact Hnodup|].
    apply NoDup_app. split; [exact Hnodup|]. split.
    + intros x Hx Hx'. apply list_elem_of_singleton in Hx'. now subst x.
    + apply NoDup_singleton.
  - destruct (put_task_cases task tasks)
      as [[Hnone ->]|(before & old & after & -> & Hold & Hb & ->)].
    + now apply put_task_first.
    + now apply put_task_first.
Qed.

Lemma legacy_deserialize_serialize `{Platform} (task : TaskRepository.Task)
    (record : JSON) :
  TaskRepository.serializeTask task = Ok record ->
  reads_back_task task ->
  TaskRepository.deserializeTask record = Some task.
Proof.
  unfold TaskRepository.serializeTask, reads_back_task, reads_back_date.
  intros Hs [(c & Hc & Hdc) (u & Hu & Hdu)]. rewrite Hc, Hu in Hs.
  apply Ok_inj in Hs. subst record.
  unfold TaskRepository.deserializeTask.
  change (TaskRepository.isValidTaskData _) with true. cbn [negb].
  change (get_property _ "id") with (Some (JString (TaskRepository.id task))).
  change (get_property _ "title") with (Some (JString (TaskRepository.title task))).
  change (get_property _ "status")
    with (Some (JString (TaskRepository.status task))).
  change (get_property _ "createdAt") with (Some (JString c)).
  change (get_property _ "updatedAt") with (Some (JString u)).
  cbn. rewrite Hdc, Hdu. now destruct task.
Qed.

Lemma legacy_serializeTask_reads_back `{Platform} (task : TaskRepository.Task) :
  reads_back_task task -> exists record, TaskRepository.serializeTask task = Ok record.
Proof.
  unfold TaskRepository.serializeTask, reads_back_task, reads_back_date.
  intros [(c & -> & _) (u & -> & _)]. eauto.
Qed.

Lemma legacy_records_read_back `{Platform} (tasks : list TaskRepository.Task) :
  List.Forall reads_back_task tasks ->
  exists records,
    map_result TaskRepository.serializeTask tasks = Ok records
    /\ filter_Boolean (List.map TaskRepository.deserializeTask records) = tasks.
Proof.
  induction 1 as [|t l Ht Hl (records & Hr & Hback)]; cbn [map_result].
  - exists []. split; reflexivity.
  - destruct (legacy_serializeTask_reads_back t Ht) as [record Hrec].
    rewrite Hrec, Hr. exists (record :: records). split; [reflexivity|].
    unfold filter_Boolean in *. cbn [List.map omap list_omap].
    rewrite (legacy_deserialize_serialize t record Hrec Ht).
    cbn. now rewrite Hback.
Qed.

Lemma array_text_not_empty (records : list JSON) :
  exists c text, JSON_stringify (JArray records) = c :: text.
Proof. cbn [JSON_stringify]. eexists _, _. reflexivity. Qed.

Lemma legacy_findAll_stored `{Platform} (records : list JSON) (st : LocalStorage) :
  items st !! TaskRepository.STORAGE_KEY = Some (JSON_stringify (JArray records)) ->
  reads_back_records records ->
  fst (TaskRepository.findAll st)
  = filter_Boolean (List.map TaskRepository.deserializeTask records).
Proof.
  intros Hitem Hparse. unfold TaskRepository.findAll, getItem. rewrite Hitem.
  destruct (array_text_not_empty records) as (c & text & Htext).
  unfold reads_back_records in Hparse. rewrite Htext in *. now rewrite Hparse.
Qed.

Lemma legacy_findAll_items `{Platform} (st : LocalStorage) :
  items (snd (TaskRepository.findAll st)) = items st
  /\ quota (snd (TaskRepository.findAll st)) = quota st.
Proof.
  unfold TaskRepository.findAll, getItem.
  destruct (items st !! TaskRepository.STORAGE_KEY) as [[|c data]|];
    try (split; reflexivity).
  destruct (JSON_parse (c :: data)) as [[]|]; split; reflexivity.
Qed.

(** X28. Saving a task and reading it back. When the platform reads back
    the dates of the tasks to be written and the text of their records, and
    that text fits the quota, [save] returns the task, a following [findAll]
    returns the array that was written, which is the one read before with
    the task put in, and [findById] returns the task for its identifier. *)
Theorem legacy_save_then_find `{Platform} (task : TaskRepository.Task)
    (st : LocalStorage) :
  let written := TaskRepository.put_task task (fst (TaskRepository.findAll st)) in
  List.Forall reads_back_task written ->
  (forall records, map_result TaskRepository.serializeTask written = Ok records ->
     reads_back_records records
     /\ used_space (<[TaskRepository.STORAGE_KEY := JSON_stringify (JArray records)]>
                      (items st)) <= quota st) ->
  fst (TaskRepository.save task st) = Ok task
  /\ fst (TaskRepository.findAll (snd (TaskRepository.save task st))) = written
  /\ fst (TaskRepository.findById (TaskRepository.id task)
            (snd (TaskRepository.save task st))) = Some task.
Proof.
  cbn zeta. intros Hdates Hplatform.
  destruct (legacy_records_read_back _ Hdates) as (records & Hrecords & Hback).
  destruct (Hplatform records Hrecords) as [Hparse Hquota].
  destruct (legacy_findAll_items st) as [Hitems Hq].
  assert (Hsave : TaskRepository.save task st
    = (Ok task,
       mkStorage (<[TaskRepository.STORAGE_KEY := JSON_stringify (JArray records)]>
                    (items st)) (quota st)
         (call_setItem TaskRepository.STORAGE_KEY (JSON_stringify (JArray records))
            :: calls (snd (TaskRepository.findAll st))))).
  { unfold TaskRepository.save.
    destruct (TaskRepository.findAll st) as [tasks st1]. cbn [fst snd] in *.
    unfold TaskRepository.persistTasks, setItem. rewrite Hrecords, Hitems, Hq.
    destruct (Z.gtb_spec (used_space (<[TaskRepository.STORAGE_KEY :=
                JSON_stringify (JArray records)]> (items st))) (quota st));
      [lia|reflexivity]. }
  rewrite Hsave. cbn [fst snd].
  assert (Hall : fst (TaskRepository.findAll
      (mkStorage (<[TaskRepository.STORAGE_KEY := JSON_stringify (JArray records)]>
                    (items st)) (quota st)
         (call_setItem TaskRepository.STORAGE_KEY (JSON_stringify (JArray records))
            :: calls (snd (TaskRepository.findAll st)))))
      = TaskRepository.put_task task (fst (TaskRepository.findAll st))).
  { rewrite (legacy_findAll_stored records); [exact Hback| |exact Hparse].
    cbn [items]. apply lookup_insert_eq. }
  split; [reflexivity|]. split; [exact Hall|].
  unfold TaskRepository.findById.
  destruct (TaskRepository.findAll (mkStorage _ _ _)) as [tasks' st'].
  cbn [fst snd] in *. subst tasks'.
  destruct (put_task_cases task (fst (TaskRepository.findAll st)))
    as [[Hnone ->]|(before & old & after & _ & Hold & Hb & ->)].
  - rewrite find_app_none by exact Hnone. cbn. now rewrite jsstring_eqb_refl'.
  - rewrite find_app_none by exact Hb. cbn. now rewrite jsstring_eqb_refl'.
Qed.

Lemma legacy_save_then_find_witness :
  List.Forall (reads_back_task (H := reference_platform))
    (TaskRepository.put_task archived_task
       (fst (TaskRepository.findAll (H := reference_platform)
               storage_with_two_records)))
  /\ fst (TaskRepository.save (H := reference_platform) archived_task
            storage_with_two_records) = Ok archived_task
  /\ length (fst (TaskRepository.findAll (H := reference_platform)
                    (snd (TaskRepository.save (H := reference_platform)
                            archived_task storage_with_two_records)))) = 2%nat
  /\ fst (TaskRepository.findById (H := reference_platform) (str "task_7")
            (snd (TaskRepository.save (H := reference_platform) archived_task
                    storage_with_two_records)))
     = Some archived_task.
Proof.
  assert (Hwritten : TaskRepository.put_task archived_task
            (fst (TaskRepository.findAll (H := reference_platform)
                    storage_with_two_records))
          = [TaskRepository.mkTask (str "task_1") (str "a b") (str "pending")
               (ValidDate 1700000000123) (ValidDate 1700000000123);
             archived_task]) by (vm_compute; reflexivity).
  assert (Hdates : List.Forall (reads_back_task (H := reference_platform))
            (TaskRepository.put_task archived_task
               (fst (TaskRepository.findAll (H := reference_platform)
                       storage_with_two_records)))).
  { rewrite Hwritten. repeat constructor;
      (eexists; split; [reflexivity|vm_compute; reflexivity]). }
  assert (Hplatform : forall records,
            map_result TaskRepository.serializeTask
              (TaskRepository.put_task archived_task
                 (fst (TaskRepository.findAll (H := reference_platform)
                         storage_with_two_records))) = Ok records ->
            reads_back_records (H := reference_platform) records
            /\ used_space (<[TaskRepository.STORAGE_KEY :=
                               JSON_stringify (JArray records)]>
                             (items storage_with_two_records))
               <= quota storage_with_two_records).
  { rewrite Hwritten. intros records Hrecords. apply Ok_inj in Hrecords.
    subst records. split; [vm_compute; reflexivity|vm_compute; discriminate]. }
  pose proof (legacy_save_then_find (H := reference_platform) archived_task
                storage_with_two_records Hdates Hplatform) as (H1 & H2 & H3).
  split; [exact Hdates|]. split; [exact H1|]. split; [|exact H3].
  rewrite H2, Hwritten. reflexivity.
Defined.

(** X29. [delete] answers [false] exactly when no task read from the
    storage has the identifier, and then the items of the storage are as
    they were; otherwise it writes the tasks of the other identifiers and
    answers [true], or fails with the error of [persistTasks]. *)
Theorem legacy_delete_outcomes `{Platform} (wanted : jsstring) (st : LocalStorage) :
  let tasks := fst (TaskRepository.findAll st) in
  let absent :=
    List.Forall (fun t => TaskRepository.id t <> wanted) tasks in
  (fst (TaskRepository.delete wanted st) = Ok false <-> absent)
  /\ (absent -> TaskRepository.delete wanted st
                = (Ok false, snd (TaskRepository.findAll st)))
  /\ (~ absent ->
      (fst (TaskRepository.delete wanted st) = Ok true
       \/ fst (TaskRepository.delete wanted st) = Throw TaskRepository.persist_error)
      /\ snd (TaskRepository.delete wanted st)
         = snd (TaskRepository.persistTasks
                  (List.filter (fun t => negb (jsstring_eqb (TaskRepository.id t) wanted))
                     tasks)
                  (snd (TaskRepository.findAll st)))).
Proof.
  cbn zeta. unfold TaskRepository.delete.
  destruct (TaskRepository.findAll st) as [tasks st1]. cbn [fst snd].
  set (keep := fun t => negb (jsstring_eqb (TaskRepository.id t) wanted)).
  assert (Hlen : length (List.filter keep tasks) = length tasks
                 <-> List.Forall (fun t => TaskRepository.id t <> wanted) tasks).
  { induction tasks as [|t l IH]; cbn [List.filter length].
    - split; [constructor|reflexivity].
    - pose proof (List.filter_length_le keep l) as Hle.
      unfold keep at 1. unfold jsstring_eqb.
      destruct (bool_decide_reflect (TaskRepository.id t = wanted)) as [Heq|Hne];
        cbn [negb length].
      + split; [lia|]. intros Hall. inversion Hall; contradiction.
      + split.
        * intros Hl. constructor; [exact Hne|]. apply IH. lia.
        * intros Hall. inversion Hall; subst. f_equal. now apply IH. }
  pose proof (persistTasks_cases (List.filter keep tasks) st1) as Hpersist.
  destruct (Nat.eqb_spec (length (List.filter keep tasks)) (length tasks))
    as [Heq|Hne]; cbn [negb].
  - apply Hlen in Heq. split; [tauto|]. split; [reflexivity|]. intros Hn. tauto.
  - assert (Hpresent : ~ List.Forall (fun t => TaskRepository.id t <> wanted) tasks)
      by (intros Hall; apply Hlen in Hall; contradiction).
    destruct (TaskRepository.persistTasks (List.filter keep tasks) st1)
      as [[[]|e] st2]; cbn [fst snd] in *.
    + split; [split; [discriminate|tauto]|]. split; [tauto|]. intros _. now split; [left|].
    + subst e. split; [split; [discriminate|tauto]|]. split; [tauto|].
      intros _. now split; [right|].
Qed.

(** X30. The first version of the hook orders the tasks with a comparator
    of its own, [b.createdAt.getTime() - a.createdAt.getTime()]; the order it
    shows is the one of the second version, which calls
    [sortTasksByCreationDate] with [descending] set, and so are the filtered
    tasks. *)
Theorem first_hook_sortedTasks_agree (sortByCreation : bool)
    (tasks : list TaskEntity) (currentFilter : FilterType) :
  first_hook_sortedTasks sortByCreation tasks = hook_sortedTasks sortByCreation tasks
  /\ filterTasks (first_hook_sortedTasks sortByCreation tasks) currentFilter
     = hook_filteredTasks sortByCreation tasks currentFilter.
Proof.
  assert (Hsort : first_hook_sortedTasks sortByCreation tasks
                  = hook_sortedTasks sortByCreation tasks).
  { unfold first_hook_sortedTasks, hook_sortedTasks, sortTasksByCreationDate.
    destruct sortByCreation; [|reflexivity].
    assert (Hcmp : forall a b : TaskEntity,
              SortCompare (fun a b => number_sub (getTime (createdAt b))
                                                 (getTime (createdAt a))) a b
              = SortCompare (creation_comparator true) a b).
    { intros a b. unfold SortCompare, creation_comparator, number_sub, number_neg.
      destruct (getTime (createdAt a)), (getTime (createdAt b)); try reflexivity.
      lia. }
    induction tasks as [|t l IH]; cbn [Array_sort]; [reflexivity|].
    rewrite IH. generalize (Array_sort (creation_comparator true) l).
    intros sorted. induction sorted as [|y s IHs]; cbn [sort_insert]; [reflexivity|].
    now rewrite Hcmp, IHs. }
  split; [exact Hsort|]. unfold hook_filteredTasks. now rewrite Hsort.
Qed.
